(** * Resizability helpers: [restricted_eval] and the surface placement function

    A shallow embedding of [main.py].  The module has two functions:
    [restricted_eval], which substitutes variables into an expression text with
    a regular expression and hands the result to the interpreter's [eval] in a
    filtered environment, and
    [get_scale_and_position_as_function_of_pygame_surface_dimensions], which
    calls it four times over a dictionary it extends half way.

    The pieces of the Python runtime the two functions rest on are modelled
    next to them: ordered dictionaries, [str] of a value, [re.sub] for the one
    pattern shape the code builds, and [eval].  The two functions are
    parametric in [eval], taken as a function of the text and of the
    environments that has no effect of its own, so that what is proved of
    their control flow holds whatever value or exception an expression
    evaluates to; a fragment of the expression language is modelled in
    full, for the statements about values.  Text is read as ASCII, and
    [re.sub] treats empty matches as Python 3.7 and later do. *)

From Stdlib Require Import List String Ascii ZArith NArith Bool Lia PeanoNat.
From Stdlib Require Import Floats.PrimFloat Floats.SpecFloat Floats.FloatOps.
Import ListNotations.

Open Scope string_scope.
Open Scope list_scope.

(** ** Text *)

(** Scanning works on lists of characters; the program's interface is in
    terms of strings. *)
Definition text := list ascii.

Definition chars (s : string) : text := list_ascii_of_string s.
Definition str_of (t : text) : string := string_of_list_ascii t.

Definition in_range (lo hi : nat) (c : ascii) : bool :=
  let n := nat_of_ascii c in Nat.leb lo n && Nat.leb n hi.

Definition is_digit (c : ascii) : bool := in_range 48 57 c.
Definition is_alpha (c : ascii) : bool := in_range 65 90 c || in_range 97 122 c.

(** The class [\w] of the [re] module on ASCII text. *)
Definition is_word (c : ascii) : bool :=
  is_alpha c || is_digit c || Ascii.eqb c "_"%char.

Arguments is_digit : simpl never.
Arguments is_alpha : simpl never.
Arguments is_word : simpl never.

Fixpoint strip_prefix (k s : text) : option text :=
  match k, s with
  | [], _ => Some s
  | a :: k', b :: s' => if Ascii.eqb a b then strip_prefix k' s' else None
  | _ :: _, [] => None
  end.

Definition startswith (s prefix : string) : bool :=
  match strip_prefix (chars prefix) (chars s) with Some _ => true | None => false end.

(** ** Dictionaries

    A Python [dict] keeps its keys in insertion order, and the order is
    observable here: it is the order of the alternatives of the pattern. *)
Definition dict (V : Type) := list (string * V).

Fixpoint dict_get {V} (k : string) (d : dict V) : option V :=
  match d with
  | [] => None
  | (k', v) :: d' => if String.eqb k k' then Some v else dict_get k d'
  end.

(** [d[k] = v]: an existing key keeps its place, a new one goes last. *)
Fixpoint dict_set {V} (k : string) (v : V) (d : dict V) : dict V :=
  match d with
  | [] => [(k, v)]
  | (k', v') :: d' =>
      if String.eqb k k' then (k', v) :: d' else (k', v') :: dict_set k v d'
  end.

Definition dict_keys {V} (d : dict V) : list string := map fst d.

(** [d.update(other)], also the meaning of a dict display [{..., **other}]. *)
Definition dict_update {V} (d other : dict V) : dict V :=
  fold_left (fun acc kv => dict_set (fst kv) (snd kv) acc) other d.

(** A dict display [{k1: v1, k2: v2, ...}]. *)
Definition dict_of {V} (items : list (string * V)) : dict V := dict_update [] items.

(** ** Values *)

(** The objects an evaluation can hand back.  [VBuiltin] is a built-in
    function object, named as its [str] prints it; [VOpaque] stands for any
    other object, of which this program only ever observes the [str]. *)
Inductive value : Type :=
  | VInt (n : Z)
  | VFloat (x : float)
  | VStr (s : string)
  | VNone
  | VBuiltin (name : string)
  | VOpaque (shown : string).

(** Decimal digits of a natural number, most significant first. *)
Fixpoint digits_fuel (fuel : nat) (n : N) (acc : text) : text :=
  match fuel with
  | O => acc
  | S fuel' =>
      let d := ascii_of_N (48 + n mod 10) in
      if (n <? 10)%N then d :: acc else digits_fuel fuel' (n / 10) (d :: acc)
  end.

Definition decimal (n : N) : text := digits_fuel (S (N.to_nat (N.log2 n))) n [].

(** The decimal text of an int.  This is [str(n)] for the ints of at most
    4300 digits (the default of [sys.int_info]); on a longer one [str]
    raises [ValueError], which [int_str] does not show: a statement that
    rests on the text of an int being its [str] carries the bound
    ([value_within_limit], below). *)
Definition int_str (n : Z) : string :=
  match n with
  | Zneg p => String "-"%char (str_of (decimal (Npos p)))
  | _ => str_of (decimal (Z.to_N n))
  end.

(** ** Exceptions and completions *)

(** The exceptions of the model, all of them subclasses of [Exception].
    [UnresolvedName] is the failure of a name that is bound neither in the
    locals nor in the globals of an evaluation whose [__builtins__] is
    [None]. *)
Inductive exn : Type :=
  | KeyError (key : string)
  | UnresolvedName (name : string)
  | ZeroDivisionError
  | OverflowError
  | ValueError
  | TypeError
  | SyntaxError
  | OtherError (what : string).

(** How a call ends: with a value, with an exception that propagates to the
    caller, or with the [SystemExit] that [sys.exit()] raises. *)
Inductive completion (A : Type) : Type :=
  | Normal (a : A)
  | Raised (e : exn)
  | SysExit.
Arguments Normal {A} a.
Arguments Raised {A} e.
Arguments SysExit {A}.

(** What [eval] does with an expression: a value or an exception. *)
Inductive eval_result : Type :=
  | Value (v : value)
  | Raise (e : exn).

(** ** The world and the monad of calls

    A call runs against the interpreter's state: the heap of dictionaries
    (a [dict] is passed by reference, so caller and callee share it), what has
    been printed, and whether pygame's modules are still initialised. *)
Definition ref := nat.

Record world : Type := World {
  heap : ref -> dict value;
  next_ref : ref;
  stdout : list string;
  pygame_initialised : bool
}.

Definition M (A : Type) : Type := world -> completion A * world.

Definition ret {A} (a : A) : M A := fun w => (Normal a, w).

Definition bind {A B} (m : M A) (k : A -> M B) : M B :=
  fun w =>
    match m w with
    | (Normal a, w') => k a w'
    | (Raised e, w') => (Raised e, w')
    | (SysExit, w') => (SysExit, w')
    end.

Notation "x <- m ;; k" := (bind m (fun x => k))
  (at level 61, m at next level, right associativity).
Notation "m ;;; k" := (bind m (fun _ => k))
  (at level 61, right associativity).

Definition raise {A} (e : exn) : M A := fun w => (Raised e, w).

(** [try: body except Exception as e: handler e].  Every [exn] of the model is
    an [Exception]; [SystemExit] is not, and passes through. *)
Definition try_except {A} (body : M A) (handler : exn -> M A) : M A :=
  fun w =>
    match body w with
    | (Raised e, w') => handler e w'
    | r => r
    end.

Definition heap_set (h : ref -> dict value) (r : ref) (d : dict value) : ref -> dict value :=
  fun r' => if Nat.eqb r' r then d else h r'.

(** A dict display: a new dictionary on the heap. *)
Definition new_dict (items : list (string * value)) : M ref :=
  fun w =>
    (Normal (next_ref w),
     World (heap_set (heap w) (next_ref w) (dict_of items)) (S (next_ref w))
           (stdout w) (pygame_initialised w)).

(** [d.keys()], read in iteration order. *)
Definition keys_of (d : ref) : M (list string) :=
  fun w => (Normal (dict_keys (heap w d)), w).

(** [d[k]] read: [KeyError] when the key is missing. *)
Definition getitem (d : ref) (k : string) : M value :=
  fun w =>
    match dict_get k (heap w d) with
    | Some v => (Normal v, w)
    | None => (Raised (KeyError k), w)
    end.

(** [d[k] = v]. *)
Definition setitem (d : ref) (k : string) (v : value) : M unit :=
  fun w =>
    (Normal tt,
     World (heap_set (heap w) d (dict_set k v (heap w d))) (next_ref w)
           (stdout w) (pygame_initialised w)).

(** [print(line)]. *)
Definition print (line : string) : M unit :=
  fun w =>
    (Normal tt, World (heap w) (next_ref w) (stdout w ++ [line]) (pygame_initialised w)).

(** [pygame.quit()]: uninitialise the pygame modules. *)
Definition pygame_quit : M unit :=
  fun w => (Normal tt, World (heap w) (next_ref w) (stdout w) false).

(** [sys.exit()]. *)
Definition sys_exit {A} : M A := fun w => (SysExit, w).

(** ** The pattern and [re.sub]

    [restricted_eval] compiles [\b(k1|...|kn)\b], each [ki] an escaped key, so
    a literal.  The compiled pattern is modelled by the list of its
    alternatives, in the order of the keys; joining no key at all leaves the
    group empty, which is one empty alternative. *)
Definition pattern := list text.

Definition re_compile (keys : list string) : pattern :=
  match keys with
  | [] => [[]]
  | _ => map chars keys
  end.

Definition word_before (prev : option ascii) : bool :=
  match prev with Some c => is_word c | None => false end.

Definition word_at (s : text) : bool :=
  match s with c :: _ => is_word c | [] => false end.

(** [\b] between the character [prev] (if any) and the text [s] that follows. *)
Definition at_boundary (prev : option ascii) (s : text) : bool :=
  xorb (word_before prev) (word_at s).

(** The character that precedes the position reached after reading [k]. *)
Definition last_char (prev : option ascii) (k : text) : option ascii :=
  fold_left (fun _ c => Some c) k prev.

(** The alternatives are tried in order; one succeeds when it is a prefix of
    the text, the closing [\b] holds after it and, when the search must
    advance, it is not empty.  A failure backtracks into the next one. *)
Fixpoint first_alternative (p : pattern) (prev : option ascii) (s : text)
    (must_advance : bool) : option text :=
  match p with
  | [] => None
  | k :: p' =>
      match strip_prefix k s with
      | Some rest =>
          if at_boundary (last_char prev k) rest
             && (negb must_advance || negb (Nat.eqb (List.length k) 0))
          then Some k
          else first_alternative p' prev s must_advance
      | None => first_alternative p' prev s must_advance
      end
  end.

(** A match of the whole pattern at the current position, as its text. *)
Definition match_here (p : pattern) (prev : option ascii) (s : text)
    (must_advance : bool) : option text :=
  if at_boundary prev s then first_alternative p prev s must_advance else None.

Section Sub.

Variable p : pattern.
(** The replacement callback, called at each match with the matched text. *)
Variable repl : text -> M text.

(** [p.sub(repl, s)], scanning left to right.  [prev] is the character before
    the current position and [skip] counts the characters of the current
    match still to be passed.  After an empty match the next search starts at
    the same place and must advance (the rule of Python 3.7 and later); after
    a non-empty one it starts where the match ended. *)
Fixpoint sub_scan (prev : option ascii) (skip : nat) (s : text) : M text :=
  match s with
  | [] =>
      match match_here p prev [] false with
      | Some k => repl k
      | None => ret []
      end
  | c :: s' =>
      match skip with
      | S n => sub_scan (Some c) n s'
      | O =>
          let copy := out <- sub_scan (Some c) 0 s' ;; ret (c :: out) in
          let replace k :=
            r <- repl k ;;
            out <- sub_scan (Some c) (List.length k - 1) s' ;;
            ret (r ++ out) in
          match match_here p prev s false with
          | None => copy
          | Some [] =>
              r <- repl [] ;;
              out <- match match_here p prev s true with
                     | Some k => replace k
                     | None => copy
                     end ;;
              ret (r ++ out)
          | Some k => replace k
          end
      end
  end.

Definition re_sub (s : string) : M string :=
  out <- sub_scan None 0 (chars s) ;; ret (str_of out).

End Sub.

(** ** The two functions of [main.py] *)

(** A [pygame.Surface], as far as the module looks at it. *)
Record Surface : Type := { get_width : Z; get_height : Z }.

Section Interpreter.

(** The interpreter's [eval(expression, globals, locals)] on an expression
    text, [repr] of a float, [str] of an exception, and the contents of
    [math.__dict__]. *)
Variable py_eval : string -> dict value -> dict value -> eval_result.
Variable float_repr : float -> string.
Variable exn_str : exn -> string.
Variable math_dict : dict value.

(** [str(v)]. *)
Definition py_str (v : value) : string :=
  match v with
  | VInt n => int_str n
  | VFloat x => float_repr x
  | VStr s => s
  | VNone => "None"
  | VBuiltin name => ("<built-in function " ++ name ++ ">")%string
  | VOpaque shown => shown
  end.

(** The call of [eval].  The interpreter is taken as a function of the text
    and of the two environments, which answers with a value or with an
    exception of the class [Exception] and leaves the world alone.  That is
    what [eval] is on the arithmetic a formula is made of.  On other
    expressions it can be more: what such an expression reaches through the
    attributes of a value is outside this model, and nothing below is a
    statement about it. *)
Definition eval_call (expression : string) (globals locals : dict value) : M value :=
  fun w =>
    match py_eval expression globals locals with
    | Value v => (Normal v, w)
    | Raise e => (Raised e, w)
    end.

Definition allowed_names : dict value :=
  dict_update
    (dict_of [("abs", VBuiltin "abs"); ("round", VBuiltin "round");
              ("min", VBuiltin "min"); ("max", VBuiltin "max")])
    (dict_of (filter (fun kv => negb (startswith (fst kv) "__")) math_dict)).

Definition safe_env : dict value :=
  dict_update (dict_of [("__builtins__", VNone)]) allowed_names.

(** What the callback answers for a match against a mapping. *)
Definition lookup_text (mapping : dict value) (m : text) : completion text :=
  match dict_get (str_of m) mapping with
  | Some v => Normal (chars (py_str v))
  | None => Raised (KeyError (str_of m))
  end.

(** The callback of the substitution: [str(variables[match.group(0)])]. *)
Definition replace_var (variables : ref) (m : text) : M text :=
  v <- getitem variables (str_of m) ;; ret (chars (py_str v)).

(** The first half of [restricted_eval]: the pattern is compiled from the
    keys and every match is replaced. *)
Definition substitute (expression : string) (variables : ref) : M string :=
  keys <- keys_of variables ;;
  let pattern := re_compile keys in
  re_sub pattern (replace_var variables) expression.

Definition diagnostic (e : exn) (expression : string) : string :=
  ("Encountered '" ++ exn_str e ++ "' error in evaluating expression : "
   ++ expression)%string.

Definition restricted_eval (expression : string) (variables : ref) : M value :=
  expression <- substitute expression variables ;;
  try_except
    (eval_call expression safe_env [])
    (fun e =>
       print (diagnostic e expression) ;;;
       pygame_quit ;;;
       sys_exit).

Definition get_scale_and_position_as_function_of_pygame_surface_dimensions
    (surface : Surface)
    (x_pos_function y_pos_function x_scale_function y_scale_function : string)
    (surface_name : string) : M (value * value * value * value) :=
  let surface_width := get_width surface in
  let surface_height := get_height surface in
  variables <- new_dict [((surface_name ++ "_width")%string, VInt surface_width);
                         ((surface_name ++ "_height")%string, VInt surface_height)] ;;
  x_scale <- restricted_eval x_scale_function variables ;;
  y_scale <- restricted_eval y_scale_function variables ;;
  setitem variables "x_scale" x_scale ;;;
  setitem variables "y_scale" y_scale ;;;
  x <- restricted_eval x_pos_function variables ;;
  y <- restricted_eval y_pos_function variables ;;
  ret (x, y, x_scale, y_scale).

(** *** The two functions in the words of the specification

    The specification describes an [evaluate] that takes the mapping itself
    and a [compute_placement] that takes the two dimensions.  [evaluate] is
    what a call of [restricted_eval] on a dictionary holding that mapping
    does: the way the call ends, the lines it prints and whether pygame
    is still up after it. *)
Definition evaluate (expression : string) (mapping : dict value)
    : completion value * list string * bool :=
  let '(c, w) := restricted_eval expression 0 (World (fun _ => mapping) 1 [] true) in
  (c, stdout w, pygame_initialised w).

(** To perform an evaluation in a world: its lines are printed, and pygame
    goes down if the evaluation took it down. *)
Definition perform (o : completion value * list string * bool) : M value :=
  fun w =>
    let '(c, out, up) := o in
    (c, World (heap w) (next_ref w) (stdout w ++ out) (pygame_initialised w && up)).

Definition compute_placement (surface_width surface_height : Z)
    (x_pos_expr y_pos_expr x_scale_expr y_scale_expr : string)
    (surface_name : string) : M (value * value * value * value) :=
  let mapping := [((surface_name ++ "_width")%string, VInt surface_width);
                  ((surface_name ++ "_height")%string, VInt surface_height)] in
  x_scale <- perform (evaluate x_scale_expr mapping) ;;
  y_scale <- perform (evaluate y_scale_expr mapping) ;;
  let extended := mapping ++ [("x_scale", x_scale); ("y_scale", y_scale)] in
  x <- perform (evaluate x_pos_expr extended) ;;
  y <- perform (evaluate y_pos_expr extended) ;;
  ret (x, y, x_scale, y_scale).

End Interpreter.

(** The default of the [surface_name] argument. *)
Definition default_surface_name : string := "surface".

(** What a caller can observe of a run: how it ended, what was printed and
    whether pygame is still up. *)
Definition observe {A} (r : completion A * world) : completion A * list string * bool :=
  (fst r, stdout (snd r), pygame_initialised (snd r)).

(** ** A fragment of [eval]

    The arithmetic fragment of the expression language: decimal integer and
    [digits.digits] float literals, plain string literals, names, unary and
    binary arithmetic operators, parentheses, calls of a few built-in
    functions and the attributes [real] and [imag] of numbers.  Every
    function below answers [None] on what the fragment does not cover, so
    that [Some] is the only thing that counts as a statement about the
    interpreter.  The fragment stays clear of the interpreter's limits on
    resources: it reads int literals of at most [max_str_digits] digits and
    expressions of at most [max_tokens] tokens, and computes powers of at
    most [max_power_bits] bits. *)

Inductive token : Type :=
  | TName (s : string)
  | TInt (n : Z)
  | TFloat (x : float)
  | TStr (s : string)
  | TPlus | TMinus | TStar | TSlash | TDoubleSlash | TPercent | TDoubleStar
  | TLParen | TRParen | TComma | TDot.

(** *** Lexing *)

(** The text cut into maximal runs of word characters and single other
    characters. *)
Inductive chunk : Type :=
  | Word (w : text)
  | Sep (c : ascii).

Fixpoint chunks (s : text) : list chunk :=
  match s with
  | [] => []
  | c :: s' =>
      if is_word c then
        match chunks s' with
        | Word w :: r => Word (c :: w) :: r
        | r => Word [c] :: r
        end
      else Sep c :: chunks s'
  end.

Definition digit_value (c : ascii) : Z := Z.of_nat (nat_of_ascii c) - 48.

Definition int_of_digits (w : text) : Z :=
  fold_left (fun acc c => acc * 10 + digit_value c)%Z w 0%Z.

Definition keywords : list string :=
  ["False"; "None"; "True"; "and"; "as"; "assert"; "async"; "await"; "break";
   "class"; "continue"; "def"; "del"; "elif"; "else"; "except"; "finally";
   "for"; "from"; "global"; "if"; "import"; "in"; "is"; "lambda"; "nonlocal";
   "not"; "or"; "pass"; "raise"; "return"; "try"; "while"; "with"; "yield"].

(** Words the compiler does not treat as ordinary names: the keywords, and
    [__debug__], which it replaces by a constant. *)
Definition is_keyword (s : string) : bool :=
  existsb (String.eqb s) ("__debug__" :: keywords).

(** An identifier: word characters, the first of them not a digit. *)
Definition is_identifier (w : text) : bool :=
  match w with
  | c :: _ => negb (is_digit c) && forallb is_word w
  | [] => false
  end.

(** A decimal integer literal: digits, with no leading zero unless all of
    them are zeros. *)
Definition is_int_literal (w : text) : bool :=
  forallb is_digit w
  && match w with
     | [] => false
     | c :: _ => negb (Ascii.eqb c "0"%char) || Z.eqb (int_of_digits w) 0
     end.

(** The interpreter converts between ints and decimal text up to
    [sys.int_info.default_max_str_digits] digits, and refuses longer
    conversions: an int literal of more digits is an error of the compiler,
    and [str] of an int of more digits raises [ValueError]. *)
Definition max_str_digits : N := 4300.

Definition within_digit_limit (ds : text) : bool :=
  N.leb (N.of_nat (List.length ds)) max_str_digits.

(** An int literal the fragment reads: one within the limit.  (Longer ones
    that are all zeros are read by the interpreter too; the fragment leaves
    them out.) *)
Definition int_literal (w : text) : bool :=
  is_int_literal w && within_digit_limit w.

Definition Z2SF (n : Z) : spec_float :=
  match n with
  | Z0 => S754_zero false
  | Zpos m => S754_finite false m 0
  | Zneg m => S754_finite true m 0
  end.

(** The float nearest to the quotient of two integers (ties to even). *)
Definition nearest_quotient (a b : Z) : spec_float := SFdiv prec emax (Z2SF a) (Z2SF b).

(** The value of the literal [whole.frac]. *)
Definition float_of_literal (whole frac : text) : float :=
  SF2Prim (nearest_quotient (int_of_digits (whole ++ frac))
                            (10 ^ Z.of_nat (List.length frac))).

Definition double_quote : ascii := ascii_of_nat 34.
Definition backslash : ascii := ascii_of_nat 92.
Definition is_quote (c : ascii) : bool := Ascii.eqb c "'"%char || Ascii.eqb c double_quote.

Definition chunk_text (c : chunk) : text :=
  match c with Word w => w | Sep c => [c] end.

Definition starts_with_quote (cs : list chunk) : bool :=
  match cs with Sep c :: _ => is_quote c | _ => false end.

Definition cons_token (t : token) (r : option (list token)) : option (list token) :=
  option_map (cons t) r.

(** [lex] reads tokens; [lex_string q acc] is inside a string literal opened
    by the quote [q], with [acc] read so far (printable characters only, and
    no backslash). *)
Fixpoint lex (cs : list chunk) : option (list token) :=
  match cs with
  | [] => Some []
  | Word w :: rest =>
      if forallb is_digit w then
        let an_int :=
          if int_literal w && negb (starts_with_quote rest)
          then cons_token (TInt (int_of_digits w)) (lex rest)
          else None in
        match rest with
        | Sep c :: rest1 =>
            if Ascii.eqb c "."%char then
              match rest1 with
              | Word f :: rest' =>
                  if forallb is_digit f && negb (starts_with_quote rest')
                  then cons_token (TFloat (float_of_literal w f)) (lex rest')
                  else None
              | _ => None
              end
            else an_int
        | _ => an_int
        end
      else if is_identifier w && negb (is_keyword (str_of w))
              && negb (starts_with_quote rest)
      then cons_token (TName (str_of w)) (lex rest)
      else None
  | Sep c :: rest =>
      if Ascii.eqb c " "%char || Ascii.eqb c (ascii_of_nat 9) then lex rest
      else if is_quote c then lex_string c [] rest
      else if Ascii.eqb c "+"%char then cons_token TPlus (lex rest)
      else if Ascii.eqb c "-"%char then cons_token TMinus (lex rest)
      else if Ascii.eqb c "%"%char then cons_token TPercent (lex rest)
      else if Ascii.eqb c "("%char then cons_token TLParen (lex rest)
      else if Ascii.eqb c ")"%char then cons_token TRParen (lex rest)
      else if Ascii.eqb c ","%char then cons_token TComma (lex rest)
      else if Ascii.eqb c "."%char then
        match rest with
        | Word w :: _ =>
            if is_identifier w && negb (is_keyword (str_of w))
            then cons_token TDot (lex rest)
            else None
        | _ => None
        end
      else if Ascii.eqb c "*"%char then
        match rest with
        | Sep c' :: rest' =>
            if Ascii.eqb c' "*"%char then cons_token TDoubleStar (lex rest')
            else cons_token TStar (lex rest)
        | _ => cons_token TStar (lex rest)
        end
      else if Ascii.eqb c "/"%char then
        match rest with
        | Sep c' :: rest' =>
            if Ascii.eqb c' "/"%char then cons_token TDoubleSlash (lex rest')
            else cons_token TSlash (lex rest)
        | _ => cons_token TSlash (lex rest)
        end
      else None
  end
with lex_string (q : ascii) (acc : text) (cs : list chunk) : option (list token) :=
  match cs with
  | [] => None
  | Word w :: rest => lex_string q (acc ++ w) rest
  | Sep c :: rest =>
      if Ascii.eqb c q then
        if starts_with_quote rest then None
        else cons_token (TStr (str_of acc)) (lex rest)
      else if in_range 32 126 c && negb (Ascii.eqb c backslash)
      then lex_string q (acc ++ [c]) rest
      else None
  end.

Definition tokenize (s : string) : option (list token) := lex (chunks (chars s)).

(** *** Parsing *)

Inductive unop : Type := UPlus | UMinus.
Inductive binop : Type := Add | Sub | Mul | Div | FloorDiv | Mod | Pow.

#[local] Set Warnings "-register-all".
Inductive expr : Type :=
  | ENum (n : Z)
  | EFloat (x : float)
  | EStr (s : string)
  | EName (s : string)
  | EUn (op : unop) (e : expr)
  | EBin (op : binop) (l r : expr)
  | ECall (f : expr) (args : list expr)
  | EAttr (e : expr) (name : string).

(** Induction on expressions, through the arguments of a call. *)
Section ExprInduction.

Variable P : expr -> Prop.
Hypothesis on_num : forall n, P (ENum n).
Hypothesis on_float : forall x, P (EFloat x).
Hypothesis on_str : forall s, P (EStr s).
Hypothesis on_name : forall s, P (EName s).
Hypothesis on_un : forall op e, P e -> P (EUn op e).
Hypothesis on_bin : forall op l r, P l -> P r -> P (EBin op l r).
Hypothesis on_call : forall f args, P f -> Forall P args -> P (ECall f args).
Hypothesis on_attr : forall e name, P e -> P (EAttr e name).

Fixpoint expr_induction (e : expr) : P e :=
  match e with
  | ENum n => on_num n
  | EFloat x => on_float x
  | EStr s => on_str s
  | EName s => on_name s
  | EUn op e1 => on_un op e1 (expr_induction e1)
  | EBin op l r => on_bin op l r (expr_induction l) (expr_induction r)
  | ECall f args =>
      on_call f args (expr_induction f)
        ((fix all (es : list expr) : Forall P es :=
            match es with
            | [] => Forall_nil P
            | e1 :: es' => Forall_cons e1 (expr_induction e1) (all es')
            end) args)
  | EAttr e1 name => on_attr e1 name (expr_induction e1)
  end.

End ExprInduction.

Definition parser (A : Type) : Type := list token -> option (A * list token).

(** The grammar, by recursive descent; [n] bounds the depth of the descent.
<<
    sum     ::= term (('+' | '-') term)*
    term    ::= factor (('*' | '/' | '//' | '%') factor)*
    factor  ::= ('+' | '-') factor | power
    power   ::= primary ['**' factor]
    primary ::= atom ('(' [sum (',' sum)* [',']] ')' | '.' NAME)*
    atom    ::= NAME | NUMBER | STRING | '(' sum ')'
>> *)
Fixpoint parse_sum (n : nat) : parser expr :=
  fun ts =>
    match n with
    | O => None
    | S n' =>
        match parse_term n' ts with
        | Some (l, ts') => parse_sum_rest n' l ts'
        | None => None
        end
    end
with parse_sum_rest (n : nat) (l : expr) : parser expr :=
  fun ts =>
    match n with
    | O => None
    | S n' =>
        match ts with
        | TPlus :: ts' =>
            match parse_term n' ts' with
            | Some (r, ts'') => parse_sum_rest n' (EBin Add l r) ts''
            | None => None
            end
        | TMinus :: ts' =>
            match parse_term n' ts' with
            | Some (r, ts'') => parse_sum_rest n' (EBin Sub l r) ts''
            | None => None
            end
        | _ => Some (l, ts)
        end
    end
with parse_term (n : nat) : parser expr :=
  fun ts =>
    match n with
    | O => None
    | S n' =>
        match parse_factor n' ts with
        | Some (l, ts') => parse_term_rest n' l ts'
        | None => None
        end
    end
with parse_term_rest (n : nat) (l : expr) : parser expr :=
  fun ts =>
    match n with
    | O => None
    | S n' =>
        let continue op ts' :=
          match parse_factor n' ts' with
          | Some (r, ts'') => parse_term_rest n' (EBin op l r) ts''
          | None => None
          end in
        match ts with
        | TStar :: ts' => continue Mul ts'
        | TSlash :: ts' => continue Div ts'
        | TDoubleSlash :: ts' => continue FloorDiv ts'
        | TPercent :: ts' => continue Mod ts'
        | _ => Some (l, ts)
        end
    end
with parse_factor (n : nat) : parser expr :=
  fun ts =>
    match n with
    | O => None
    | S n' =>
        match ts with
        | TPlus :: ts' =>
            match parse_factor n' ts' with
            | Some (e, ts'') => Some (EUn UPlus e, ts'')
            | None => None
            end
        | TMinus :: ts' =>
            match parse_factor n' ts' with
            | Some (e, ts'') => Some (EUn UMinus e, ts'')
            | None => None
            end
        | _ => parse_power n' ts
        end
    end
with parse_power (n : nat) : parser expr :=
  fun ts =>
    match n with
    | O => None
    | S n' =>
        match parse_primary n' ts with
        | Some (b, TDoubleStar :: ts') =>
            match parse_factor n' ts' with
            | Some (e, ts'') => Some (EBin Pow b e, ts'')
            | None => None
            end
        | r => r
        end
    end
with parse_primary (n : nat) : parser expr :=
  fun ts =>
    match n with
    | O => None
    | S n' =>
        match ts with
        | TName s :: ts' => parse_trailers n' (EName s) ts'
        | TInt k :: ts' => parse_trailers n' (ENum k) ts'
        | TFloat x :: ts' => parse_trailers n' (EFloat x) ts'
        | TStr s :: ts' => parse_trailers n' (EStr s) ts'
        | TLParen :: ts' =>
            match parse_sum n' ts' with
            | Some (e, TRParen :: ts'') => parse_trailers n' e ts''
            | _ => None
            end
        | _ => None
        end
    end
with parse_trailers (n : nat) (f : expr) : parser expr :=
  fun ts =>
    match n with
    | O => None
    | S n' =>
        match ts with
        | TLParen :: ts' =>
            match parse_args n' ts' with
            | Some (args, ts'') => parse_trailers n' (ECall f args) ts''
            | None => None
            end
        | TDot :: TName a :: ts' => parse_trailers n' (EAttr f a) ts'
        | _ => Some (f, ts)
        end
    end
with parse_args (n : nat) : parser (list expr) :=
  fun ts =>
    match n with
    | O => None
    | S n' =>
        match ts with
        | TRParen :: ts' => Some ([], ts')
        | _ =>
            match parse_sum n' ts with
            | Some (e, TComma :: ts') =>
                match parse_args n' ts' with
                | Some (es, ts'') => Some (e :: es, ts'')
                | None => None
                end
            | Some (e, TRParen :: ts') => Some ([e], ts')
            | _ => None
            end
        end
    end.

(** A whole expression: a [sum] that uses up the tokens. *)
Definition parse (ts : list token) : option expr :=
  match parse_sum (10 * List.length ts + 10) ts with
  | Some (e, []) => Some e
  | _ => None
  end.

(** *** Evaluation *)

(** [float(n)] for an int: the nearest float, or nothing when it would be
    infinite. *)
Definition float_of_int (n : Z) : option float :=
  match binary_normalize prec emax n 0 false with
  | S754_infinity _ => None
  | r => Some (SF2Prim r)
  end.

(** The fragment computes the powers whose result stays within this many
    bits; the interpreter computes larger ones as long as memory lasts.
    A negative exponent gives a float through the platform's [pow], which
    the fragment leaves out. *)
Definition max_power_bits : Z := 1000000.

Definition int_arith (op : binop) (x y : Z) : option eval_result :=
  match op with
  | Add => Some (Value (VInt (x + y)))
  | Sub => Some (Value (VInt (x - y)))
  | Mul => Some (Value (VInt (x * y)))
  | Div =>
      if Z.eqb y 0 then Some (Raise ZeroDivisionError)
      else match nearest_quotient x y with
           | S754_infinity _ => Some (Raise OverflowError)
           | q => Some (Value (VFloat (SF2Prim q)))
           end
  | FloorDiv =>
      if Z.eqb y 0 then Some (Raise ZeroDivisionError)
      else Some (Value (VInt (x / y)))
  | Mod =>
      if Z.eqb y 0 then Some (Raise ZeroDivisionError)
      else Some (Value (VInt (x mod y)))
  | Pow =>
      if Z.leb 0 y && Z.leb ((Z.log2 (Z.abs x) + 1) * y) max_power_bits
      then Some (Value (VInt (x ^ y)))
      else None
  end.

Definition float_arith (op : binop) (x y : float) : option eval_result :=
  match op with
  | Add => Some (Value (VFloat (x + y)))
  | Sub => Some (Value (VFloat (x - y)))
  | Mul => Some (Value (VFloat (x * y)))
  | Div =>
      if PrimFloat.is_zero y then Some (Raise ZeroDivisionError)
      else Some (Value (VFloat (x / y)))
  | _ => None
  end.

Definition mixes_with_float (op : binop) : bool :=
  match op with Add | Sub | Mul | Div => true | _ => false end.

Definition arith (op : binop) (a b : value) : option eval_result :=
  match a, b with
  | VInt x, VInt y => int_arith op x y
  | VFloat x, VFloat y => float_arith op x y
  | VInt x, VFloat y =>
      if mixes_with_float op then
        match float_of_int x with
        | Some fx => float_arith op fx y
        | None => Some (Raise OverflowError)
        end
      else None
  | VFloat x, VInt y =>
      if mixes_with_float op then
        match float_of_int y with
        | Some fy => float_arith op x fy
        | None => Some (Raise OverflowError)
        end
      else None
  | _, _ => None
  end.

Definition unary (op : unop) (a : value) : option eval_result :=
  match op, a with
  | UMinus, VInt x => Some (Value (VInt (- x)))
  | UMinus, VFloat x => Some (Value (VFloat (- x)))
  | UPlus, VInt x => Some (Value (VInt x))
  | UPlus, VFloat x => Some (Value (VFloat x))
  | _, _ => None
  end.

Fixpoint all_ints (vs : list value) : option (list Z) :=
  match vs with
  | [] => Some []
  | VInt n :: vs' => option_map (cons n) (all_ints vs')
  | _ => None
  end.

(** The built-in functions the fragment knows, on the arguments it knows. *)
Definition call_builtin (name : string) (args : list value) : option eval_result :=
  if String.eqb name "abs" then
    match args with
    | [VInt n] => Some (Value (VInt (Z.abs n)))
    | [VFloat x] => Some (Value (VFloat (PrimFloat.abs x)))
    | _ => None
    end
  else if String.eqb name "round" then
    match args with
    | [VInt n] => Some (Value (VInt n))
    | _ => None
    end
  else if String.eqb name "min" then
    match all_ints args with
    | Some (n :: m :: ns) => Some (Value (VInt (fold_left Z.min (m :: ns) n)))
    | _ => None
    end
  else if String.eqb name "max" then
    match all_ints args with
    | Some (n :: m :: ns) => Some (Value (VInt (fold_left Z.max (m :: ns) n)))
    | _ => None
    end
  else if String.eqb name "sqrt" then
    match args with
    | [VInt n] =>
        match float_of_int n with
        | Some x =>
            if PrimFloat.ltb x PrimFloat.zero then Some (Raise ValueError)
            else Some (Value (VFloat (PrimFloat.sqrt x)))
        | None => Some (Raise OverflowError)
        end
    | [VFloat x] =>
        if PrimFloat.ltb x PrimFloat.zero then Some (Raise ValueError)
        else Some (Value (VFloat (PrimFloat.sqrt x)))
    | _ => None
    end
  else None.

Definition call (f : value) (args : list value) : option eval_result :=
  match f with
  | VBuiltin name => call_builtin name args
  | VInt _ | VFloat _ | VStr _ | VNone => Some (Raise TypeError)
  | VOpaque _ => None
  end.

(** [v.name], for the two attributes every number has. *)
Definition attribute (v : value) (name : string) : option eval_result :=
  match v with
  | VInt n =>
      if String.eqb name "real" then Some (Value (VInt n))
      else if String.eqb name "imag" then Some (Value (VInt 0))
      else None
  | VFloat x =>
      if String.eqb name "real" then Some (Value (VFloat x))
      else if String.eqb name "imag" then Some (Value (VFloat PrimFloat.zero))
      else None
  | _ => None
  end.

(** A name is looked up in the locals, then in the globals; the builtins
    behind them are [None] in every environment this module builds.  Only
    names reach the lookup: the keywords and [__debug__] are constants of
    the compiler, and the lexer of the fragment does not take them for
    names. *)
Definition lookup (globals locals : dict value) (name : string) : eval_result :=
  match dict_get name locals with
  | Some v => Value v
  | None =>
      match dict_get name globals with
      | Some v => Value v
      | None => Raise (UnresolvedName name)
      end
  end.

Section Eval.

Variables globals locals : dict value.

Fixpoint eval_expr (e : expr) : option eval_result :=
  match e with
  | ENum n => Some (Value (VInt n))
  | EFloat x => Some (Value (VFloat x))
  | EStr s => Some (Value (VStr s))
  | EName s => Some (lookup globals locals s)
  | EUn op e1 =>
      match eval_expr e1 with
      | Some (Value v) => unary op v
      | r => r
      end
  | EBin op l r =>
      match eval_expr l with
      | Some (Value a) =>
          match eval_expr r with
          | Some (Value b) => arith op a b
          | r' => r'
          end
      | r' => r'
      end
  | ECall f args =>
      match eval_expr f with
      | Some (Value fv) =>
          let eval_args :=
            fix eval_args (es : list expr) : option (list value + exn) :=
              match es with
              | [] => Some (inl [])
              | e1 :: es' =>
                  match eval_expr e1 with
                  | Some (Value v) =>
                      match eval_args es' with
                      | Some (inl vs) => Some (inl (v :: vs))
                      | r' => r'
                      end
                  | Some (Raise x) => Some (inr x)
                  | None => None
                  end
              end in
          match eval_args args with
          | Some (inl vs) => call fv vs
          | Some (inr x) => Some (Raise x)
          | None => None
          end
      | r' => r'
      end
  | EAttr e1 name =>
      match eval_expr e1 with
      | Some (Value v) => attribute v name
      | r' => r'
      end
  end.

End Eval.

(** The fragment answers for expressions of at most this many tokens, which
    keeps them clear of the interpreter's limits on nesting. *)
Definition max_tokens : nat := 100.

(** [eval(expression, globals, locals)] on the fragment. *)
Definition arith_eval (expression : string) (globals locals : dict value)
    : option eval_result :=
  match tokenize expression with
  | Some ts =>
      if Nat.leb (List.length ts) max_tokens then
        match parse ts with
        | Some e => eval_expr globals locals e
        | None => None
        end
      else None
  | None => None
  end.

(** An interpreter agrees with the fragment wherever the fragment answers,
    in the environments whose globals bind [__builtins__] to [None].  (To
    globals without the entry [eval] adds its own builtins, which the lookup
    of the fragment does not know.) *)
Definition extends_fragment
    (py_eval : string -> dict value -> dict value -> eval_result) : Prop :=
  forall expression globals locals r,
    dict_get "__builtins__" globals = Some VNone ->
    arith_eval expression globals locals = Some r ->
    py_eval expression globals locals = r.

(** The fragment completed into a total evaluator: what it does not cover is
    reported as an error of its own. *)
Definition fragment_eval (expression : string) (globals locals : dict value)
    : eval_result :=
  match arith_eval expression globals locals with
  | Some r => r
  | None => Raise (OtherError "outside the fragment")
  end.

(** The digits written for [n]: not empty, all digits, with [n] for value,
    and no leading zero unless [n] is zero. *)
Definition digits_of (n : N) (ds : text) : Prop :=
  ds <> [] /\ forallb is_digit ds = true /\ int_of_digits ds = Z.of_N n /\
  (forall c t, ds = c :: t -> Ascii.eqb c "0"%char = true -> n = 0%N).

(** ** Variables read as literals

    The tokens and the expression a text turns into when its variables are
    replaced by the literals of their values. *)

(** A key that can stand in an expression as a name. *)
Definition is_variable_name (k : string) : bool :=
  is_identifier (chars k) && negb (is_keyword k).

(** A value whose [str] is a literal of the fragment that reads back as the
    value: an int that is not negative, or a float printed as
    [digits.digits]. *)
Definition plain_value (float_repr : float -> string) (v : value) : Prop :=
  match v with
  | VInt n => (0 <= n)%Z
  | VFloat x =>
      exists whole frac,
        whole <> [] /\ frac <> [] /\
        forallb is_digit whole = true /\ forallb is_digit frac = true /\
        float_repr x = str_of (whole ++ "."%char :: frac) /\
        float_of_literal whole frac = x
  | _ => False
  end.

(** A value whose [str] the interpreter gives: any float, and an int of at
    most [max_str_digits] digits (the sign is not counted). *)
Definition value_within_limit (v : value) : bool :=
  match v with
  | VInt n => within_digit_limit (decimal (Z.to_N (Z.abs n)))
  | _ => true
  end.

Definition subst_token (mapping : dict value) (t : token) : token :=
  match t with
  | TName s =>
      match dict_get s mapping with
      | Some (VInt n) => TInt n
      | Some (VFloat x) => TFloat x
      | _ => t
      end
  | _ => t
  end.

Fixpoint subst_expr (mapping : dict value) (e : expr) : expr :=
  match e with
  | EName s =>
      match dict_get s mapping with
      | Some (VInt n) => ENum n
      | Some (VFloat x) => EFloat x
      | _ => e
      end
  | EUn op e1 => EUn op (subst_expr mapping e1)
  | EBin op l r => EBin op (subst_expr mapping l) (subst_expr mapping r)
  | ECall f args => ECall (subst_expr mapping f) (map (subst_expr mapping) args)
  | EAttr e1 name => EAttr (subst_expr mapping e1) name
  | _ => e
  end.

(** Tokens of arithmetic: no string literal, no attribute. *)
Definition arithmetic (ts : list token) : bool :=
  forallb (fun t => match t with TStr _ | TDot => false | _ => true end) ts.

Definition subst_chunk (str : value -> string) (mapping : dict value)
    (c : chunk) : list chunk :=
  match c with
  | Word w =>
      match dict_get (str_of w) mapping with
      | Some v => chunks (chars (str v))
      | None => [Word w]
      end
  | Sep c => [Sep c]
  end.

(** A parser commutes with the substitution when a parse of arithmetic
    tokens carries over to the substituted tokens, with the substituted
    result, and leaves arithmetic tokens. *)
Definition commutes {A} (mapping : dict value) (sub : A -> A)
    (f g : parser A) : Prop :=
  forall ts a ts',
    arithmetic ts = true -> f ts = Some (a, ts') ->
    g (map (subst_token mapping) ts) = Some (sub a, map (subst_token mapping) ts')
    /\ arithmetic ts' = true.

Definition parsers_commute (mapping : dict value) (n : nat) : Prop :=
  let sub := subst_expr mapping in
  commutes mapping sub (parse_sum n) (parse_sum n) /\
  commutes mapping sub (parse_term n) (parse_term n) /\
  commutes mapping sub (parse_factor n) (parse_factor n) /\
  commutes mapping sub (parse_power n) (parse_power n) /\
  commutes mapping sub (parse_primary n) (parse_primary n) /\
  commutes mapping (map sub) (parse_args n) (parse_args n) /\
  (forall l, commutes mapping sub (parse_sum_rest n l) (parse_sum_rest n (sub l))) /\
  (forall l, commutes mapping sub (parse_term_rest n l) (parse_term_rest n (sub l))) /\
  (forall l, commutes mapping sub (parse_trailers n l) (parse_trailers n (sub l))).

(** ** Substitution, word by word

    What the substitution comes to when the keys are names: the text is cut
    into its words and the characters between them, and a word that is a key
    is replaced by the [str] of its value. *)
Definition unchunk (cs : list chunk) : text := List.concat (map chunk_text cs).

Definition is_name (k : string) : bool :=
  match chars k with
  | [] => false
  | w => forallb is_word w
  end.

Definition replace_chunk (str : value -> string) (mapping : dict value)
    (c : chunk) : text :=
  match c with
  | Word w =>
      match dict_get (str_of w) mapping with
      | Some v => chars (str v)
      | None => w
      end
  | Sep c => [c]
  end.

Definition substituted (str : value -> string) (mapping : dict value)
    (expression : string) : string :=
  str_of (List.concat (map (replace_chunk str mapping) (chunks (chars expression)))).

(** A pattern whose alternatives are all words. *)
Definition words_only (p : pattern) : Prop :=
  Forall (fun k => k <> [] /\ forallb is_word k = true) p.

(** The shape of the lists [chunks] builds: words are not empty and made of
    word characters, no two words are adjacent, separators are not word
    characters. *)
Fixpoint well_chunked (cs : list chunk) : Prop :=
  match cs with
  | [] => True
  | Word w :: rest =>
      w <> [] /\ forallb is_word w = true
      /\ match rest with Word _ :: _ => False | _ => True end
      /\ well_chunked rest
  | Sep c :: rest => is_word c = false /\ well_chunked rest
  end.

(** Two worlds in which the same has been printed and pygame is in the same
    state. *)
Definition same_io (w1 w2 : world) : Prop :=
  stdout w1 = stdout w2 /\ pygame_initialised w1 = pygame_initialised w2.

(** ** A sample runtime

    A few entries of [math.__dict__], a [repr] that is right on the floats
    that are integers below [2^53], and a text for each exception: enough to
    run the functions on concrete inputs.  The text of an unresolved name
    varies with the version of the interpreter; the one below stands in
    for it. *)
Definition sample_math : dict value :=
  [("__name__", VStr "math"); ("__doc__", VNone);
   ("sqrt", VBuiltin "sqrt"); ("floor", VBuiltin "floor");
   ("pi", VFloat 0x1.921fb54442d18p+1); ("inf", VFloat infinity)].

Definition sample_float_repr (x : float) : string :=
  match Prim2SF x with
  | S754_zero false => "0.0"
  | S754_zero true => "-0.0"
  | S754_finite s m e =>
      let n := (Zpos m * 2 ^ e)%Z in
      if Z.leb 0 e && Z.ltb n (2 ^ 53)
      then ((if s then "-" else "") ++ int_str n ++ ".0")%string
      else if Z.eqb (Zpos m mod 2 ^ (- e)) 0 && Z.ltb e 0
      then ((if s then "-" else "") ++ int_str (Zpos m / 2 ^ (- e)) ++ ".0")%string
      else "?"
  | S754_infinity false => "inf"
  | S754_infinity true => "-inf"
  | S754_nan => "nan"
  end.

Definition sample_exn_str (e : exn) : string :=
  match e with
  | KeyError key => ("'" ++ key ++ "'")%string
  | UnresolvedName name => ("name '" ++ name ++ "' is not available")%string
  | ZeroDivisionError => "division by zero"
  | OverflowError => "overflow"
  | ValueError => "math domain error"
  | TypeError => "type error"
  | SyntaxError => "invalid syntax"
  | OtherError what => what
  end.

(** * Properties *)

(** ** The substitution reads and does not write *)

Lemma world_eta : forall w,
  World (heap w) (next_ref w) (stdout w) (pygame_initialised w) = w.
Proof. destruct w; reflexivity. Qed.

Lemma bind_run : forall {A B} (m : M A) (k : A -> M B) w c w',
  m w = (c, w') ->
  bind m k w = match c with
               | Normal a => k a w'
               | Raised e => (Raised e, w')
               | SysExit => (SysExit, w')
               end.
Proof. intros A B m k w c w' E. unfold bind. rewrite E. reflexivity. Qed.

(** Two scans whose callbacks answer alike and leave their worlds alone end
    alike and leave their worlds alone. *)
Lemma sub_scan_reads :
  forall (p : pattern) (repl1 repl2 : text -> M text)
         (f : text -> completion text) (w1 w2 : world),
    (forall k, repl1 k w1 = (f k, w1)) ->
    (forall k, repl2 k w2 = (f k, w2)) ->
    forall s prev skip, exists c,
      sub_scan p repl1 prev skip s w1 = (c, w1) /\
      sub_scan p repl2 prev skip s w2 = (c, w2).
Proof.
  intros p repl1 repl2 f w1 w2 H1 H2.
  assert (step : forall c s' n (out : text -> text),
    (forall prev skip, exists r,
        sub_scan p repl1 prev skip s' w1 = (r, w1) /\
        sub_scan p repl2 prev skip s' w2 = (r, w2)) ->
    exists r,
      (out0 <- sub_scan p repl1 (Some c) n s' ;; ret (out out0)) w1 = (r, w1) /\
      (out0 <- sub_scan p repl2 (Some c) n s' ;; ret (out out0)) w2 = (r, w2)).
  { intros c s' n out IH. destruct (IH (Some c) n) as [r [E1 E2]].
    rewrite (bind_run _ _ _ _ _ E1), (bind_run _ _ _ _ _ E2).
    destruct r; unfold ret; eauto. }
  assert (replace : forall c s' k,
    (forall prev skip, exists r,
        sub_scan p repl1 prev skip s' w1 = (r, w1) /\
        sub_scan p repl2 prev skip s' w2 = (r, w2)) ->
    exists r,
      (r0 <- repl1 k ;;
       out <- sub_scan p repl1 (Some c) (List.length k - 1) s' ;;
       ret (r0 ++ out)) w1 = (r, w1) /\
      (r0 <- repl2 k ;;
       out <- sub_scan p repl2 (Some c) (List.length k - 1) s' ;;
       ret (r0 ++ out)) w2 = (r, w2)).
  { intros c s' k IH.
    rewrite (bind_run _ _ _ _ _ (H1 k)), (bind_run _ _ _ _ _ (H2 k)).
    destruct (f k) as [r0| |];
      [apply (step c s' (List.length k - 1) (fun out => r0 ++ out) IH) | eauto ..]. }
  induction s as [|c s' IH]; intros prev skip; simpl.
  - destruct (match_here p prev [] false); [rewrite H1, H2 | unfold ret]; eauto.
  - destruct skip as [|n]; [|apply IH].
    destruct (match_here p prev (c :: s') false) as [[|a k]|].
    + rewrite (bind_run _ _ _ _ _ (H1 [])), (bind_run _ _ _ _ _ (H2 [])).
      destruct (f []) as [r0| |]; eauto.
      destruct (match_here p prev (c :: s') true) as [k|].
      * destruct (replace c s' k IH) as [r [E1 E2]].
        rewrite (bind_run _ _ _ _ _ E1), (bind_run _ _ _ _ _ E2).
        destruct r; unfold ret; eauto.
      * destruct (step c s' 0 (fun out => c :: out) IH) as [r [E1 E2]].
        rewrite (bind_run _ _ _ _ _ E1), (bind_run _ _ _ _ _ E2).
        destruct r; unfold ret; eauto.
    + apply (replace c s' (a :: k) IH).
    + apply (step c s' 0 (fun out => c :: out) IH).
Qed.

Section Calls.

Variable py_eval : string -> dict value -> dict value -> eval_result.
Variable float_repr : float -> string.
Variable exn_str : exn -> string.
Variable math_dict : dict value.

Local Notation "'reval'" := (restricted_eval py_eval float_repr exn_str math_dict).
Local Notation "'env'" := (safe_env math_dict).

Lemma replace_var_run : forall d k w,
  replace_var float_repr d k w = (lookup_text float_repr (heap w d) k, w).
Proof.
  intros d k w. unfold replace_var, getitem, lookup_text, bind, ret.
  destruct (dict_get (str_of k) (heap w d)); reflexivity.
Qed.

(** The substitution depends on the mapping only, and changes nothing. *)
Lemma substitute_reads : forall expression d1 d2 w1 w2,
  heap w1 d1 = heap w2 d2 ->
  exists c,
    substitute float_repr expression d1 w1 = (c, w1) /\
    substitute float_repr expression d2 w2 = (c, w2).
Proof.
  intros expression d1 d2 w1 w2 H.
  destruct (sub_scan_reads (re_compile (dict_keys (heap w1 d1)))
              (replace_var float_repr d1) (replace_var float_repr d2)
              (lookup_text float_repr (heap w1 d1)) w1 w2
              (fun k => replace_var_run d1 k w1)
              (fun k => eq_trans (replace_var_run d2 k w2)
                          (f_equal (fun m => (lookup_text float_repr m k, w2)) (eq_sym H)))
              (chars expression) None 0) as [c [E1 E2]].
  exists (match c with
          | Normal t => Normal (str_of t)
          | Raised e => Raised e
          | SysExit => SysExit
          end).
  unfold substitute, keys_of, re_sub.
  split.
  - change (bind _ _ w1) with
      (bind (sub_scan (re_compile (dict_keys (heap w1 d1))) (replace_var float_repr d1)
               None 0 (chars expression)) (fun out => ret (str_of out)) w1).
    rewrite (bind_run _ _ _ _ _ E1). destruct c; reflexivity.
  - change (bind _ _ w2) with
      (bind (sub_scan (re_compile (dict_keys (heap w2 d2))) (replace_var float_repr d2)
               None 0 (chars expression)) (fun out => ret (str_of out)) w2).
    rewrite <- H. rewrite (bind_run _ _ _ _ _ E2). destruct c; reflexivity.
Qed.

(** The shape of every call: it is an [evaluate] of the mapping the
    dictionary holds, performed in the caller's world. *)
Lemma restricted_eval_evaluate : forall expression d w,
  reval expression d w
  = perform (evaluate py_eval float_repr exn_str math_dict expression (heap w d)) w.
Proof.
  intros expression d w.
  set (w0 := World (fun _ => heap w d) 1 [] true).
  destruct (substitute_reads expression d 0 w w0 eq_refl) as [c [E1 E2]].
  unfold evaluate, perform. fold w0.
  unfold restricted_eval.
  rewrite (bind_run _ _ _ _ _ E1), (bind_run _ _ _ _ _ E2).
  destruct c as [e'| |]; simpl.
  - unfold try_except, eval_call.
    destruct (py_eval e' env []); simpl.
    + rewrite app_nil_r, andb_true_r, world_eta. reflexivity.
    + rewrite andb_false_r. reflexivity.
  - rewrite app_nil_r, andb_true_r, world_eta. reflexivity.
  - rewrite app_nil_r, andb_true_r, world_eta. reflexivity.
Qed.

(** *** Failure of the evaluation *)

Lemma substitute_run : forall expression d w,
  substitute float_repr expression d w
  = (fst (substitute float_repr expression d w), w).
Proof.
  intros expression d w.
  destruct (substitute_reads expression d d w w eq_refl) as [c [E _]].
  rewrite E. reflexivity.
Qed.

(** C2: when the evaluation of the substituted expression raises, the call
    prints one line made of the text of the error and of the expression
    after substitution, shuts pygame down and ends in [SystemExit]: it
    returns no value and raises nothing a caller's [except Exception] could
    catch. *)
Theorem evaluation_failure_is_fatal :
  forall expression variables w substituted e,
    fst (substitute float_repr expression variables w) = Normal substituted ->
    py_eval substituted (safe_env math_dict) [] = Raise e ->
    restricted_eval py_eval float_repr exn_str math_dict expression variables w
    = (SysExit,
       World (heap w) (next_ref w)
             (stdout w ++ [diagnostic exn_str e substituted]) false)
    /\ exists before between,
         diagnostic exn_str e substituted
         = (before ++ exn_str e ++ between ++ substituted)%string.
Proof.
  intros expression variables w substituted e Hsub Heval. split.
  - unfold restricted_eval.
    rewrite (bind_run _ _ _ _ _ (substitute_run expression variables w)), Hsub.
    unfold try_except, eval_call. rewrite Heval. reflexivity.
  - exists "Encountered '", "' error in evaluating expression : ". reflexivity.
Qed.

(** *** The empty mapping *)

(** With the empty alternative alone, the first word boundary is a match of
    the empty text, and the scan ends in whatever the callback does with it. *)
Lemma scan_empty_pattern : forall (repl : text -> M text) e w,
  repl [] w = (Raised e, w) ->
  forall s prev,
    word_before prev || existsb is_word s = true ->
    sub_scan [[]] repl prev 0 s w = (Raised e, w).
Proof.
  intros repl e w Hrepl.
  induction s as [|c s' IH]; intros prev H; simpl.
  - rewrite orb_false_r in H.
    unfold match_here, at_boundary. simpl. rewrite H. simpl.
    unfold at_boundary. simpl. rewrite H. simpl. exact Hrepl.
  - unfold match_here, at_boundary. simpl.
    destruct (xorb (word_before prev) (is_word c)) eqn:B.
    + unfold at_boundary. simpl. rewrite B. simpl.
      rewrite (bind_run _ _ _ _ _ Hrepl). reflexivity.
    + assert (H' : word_before (Some c) || existsb is_word s' = true).
      { revert H B. simpl.
        destruct (word_before prev), (is_word c); simpl; intros;
          try discriminate; auto. }
      rewrite (bind_run _ _ _ _ _ (IH (Some c) H')). reflexivity.
Qed.

Lemma substitute_on_empty_mapping : forall expression variables w,
  heap w variables = [] ->
  existsb is_word (chars expression) = true ->
  substitute float_repr expression variables w = (Raised (KeyError ""), w).
Proof.
  intros expression variables w Hempty Hword.
  unfold substitute, keys_of, re_sub.
  change (bind _ _ w) with
    (bind (sub_scan (re_compile (dict_keys (heap w variables)))
             (replace_var float_repr variables) None 0 (chars expression))
          (fun out => ret (str_of out)) w).
  rewrite Hempty. simpl re_compile.
  rewrite (bind_run _ _ _ (Raised (KeyError "")) w); [reflexivity|].
  apply scan_empty_pattern; [|exact Hword].
  rewrite replace_var_run. unfold lookup_text. rewrite Hempty. reflexivity.
Qed.

(** C8: on an empty mapping, an expression with a word character in it makes
    the callback look the empty text up in the mapping; the [KeyError]
    leaves the call before the guarded evaluation is reached, and nothing is
    printed. *)
Theorem empty_mapping_raises_KeyError : forall expression variables w,
  heap w variables = [] ->
  existsb is_word (chars expression) = true ->
  restricted_eval py_eval float_repr exn_str math_dict expression variables w
  = (Raised (KeyError ""), w).
Proof.
  intros expression variables w Hempty Hword.
  unfold restricted_eval.
  rewrite (bind_run _ _ _ _ _
             (substitute_on_empty_mapping expression variables w Hempty Hword)).
  reflexivity.
Qed.

(** C5: evaluating [__import__('os')] against a new empty dictionary ends in
    the [KeyError] of the substitution: nothing is printed and the process
    is not ended by the call. *)
Theorem import_os_on_empty_mapping : forall w,
  (variables <- new_dict [] ;;
   restricted_eval py_eval float_repr exn_str math_dict "__import__('os')" variables) w
  = (Raised (KeyError ""),
     World (heap_set (heap w) (next_ref w) []) (S (next_ref w))
           (stdout w) (pygame_initialised w)).
Proof.
  intros w.
  rewrite (bind_run _ _ _ (Normal (next_ref w))
             (World (heap_set (heap w) (next_ref w) []) (S (next_ref w))
                    (stdout w) (pygame_initialised w))); [|reflexivity].
  unfold restricted_eval.
  erewrite bind_run
    by (apply substitute_on_empty_mapping;
        [simpl; unfold heap_set; rewrite Nat.eqb_refl; reflexivity | reflexivity]).
  reflexivity.
Qed.

End Calls.

(** The two theorems above on the sample runtime. *)

Lemma evaluation_failure_is_fatal_witness :
  restricted_eval fragment_eval sample_float_repr sample_exn_str sample_math
    "1/x" 0 (World (fun _ => [("x", VInt 0)]) 1 [] true)
  = (SysExit,
     World (fun _ => [("x", VInt 0)]) 1
       ["Encountered 'division by zero' error in evaluating expression : 1/0"]
       false).
Proof.
  exact (proj1 (evaluation_failure_is_fatal fragment_eval sample_float_repr
                  sample_exn_str sample_math "1/x" 0
                  (World (fun _ => [("x", VInt 0)]) 1 [] true)
                  "1/0" ZeroDivisionError eq_refl eq_refl)).
Defined.

Lemma empty_mapping_raises_KeyError_witness :
  restricted_eval fragment_eval sample_float_repr sample_exn_str sample_math
    "1+2" 0 (World (fun _ => []) 1 [] true)
  = (Raised (KeyError ""), World (fun _ => []) 1 [] true).
Proof.
  exact (empty_mapping_raises_KeyError fragment_eval sample_float_repr
           sample_exn_str sample_math "1+2" 0 (World (fun _ => []) 1 [] true)
           eq_refl eq_refl).
Defined.

(** ** Dictionaries *)

Lemma dict_get_set : forall {V} k k' (v : V) d,
  dict_get k (dict_set k' v d)
  = if String.eqb k k' then Some v else dict_get k d.
Proof.
  intros V k k' v d. induction d as [|[k0 v0] d IH]; simpl.
  - reflexivity.
  - destruct (String.eqb k' k0) eqn:E; simpl.
    + apply String.eqb_eq in E. subst k0.
      destruct (String.eqb k k'); reflexivity.
    + destruct (String.eqb k k0) eqn:E0.
      * apply String.eqb_eq in E0. subst k0.
        rewrite String.eqb_sym, E. reflexivity.
      * exact IH.
Qed.

Lemma dict_get_update_other : forall {V} k (other d : dict V),
  ~ In k (dict_keys other) ->
  dict_get k (dict_update d other) = dict_get k d.
Proof.
  intros V k other. unfold dict_update.
  induction other as [|[k0 v0] other IH]; intros d H; simpl.
  - reflexivity.
  - rewrite IH by (intro; apply H; right; assumption).
    rewrite dict_get_set.
    destruct (String.eqb k k0) eqn:E; [|reflexivity].
    apply String.eqb_eq in E. subst k0. exfalso. apply H. left. reflexivity.
Qed.

Lemma dict_get_in_keys : forall {V} k (d : dict V),
  (exists v, dict_get k d = Some v) <-> In k (dict_keys d).
Proof.
  intros V k d. induction d as [|[k0 v0] d IH]; simpl.
  - split; [intros [v H]; discriminate | intros []].
  - destruct (String.eqb k k0) eqn:E.
    + apply String.eqb_eq in E. subst k0. split; eauto.
    + apply String.eqb_neq in E. rewrite IH. split; [auto|].
      intros [H|H]; [congruence | assumption].
Qed.

Lemma dict_keys_set : forall {V} k k' (v : V) d,
  In k (dict_keys (dict_set k' v d)) <-> k = k' \/ In k (dict_keys d).
Proof.
  intros V k k' v d. rewrite <- !dict_get_in_keys, dict_get_set.
  destruct (String.eqb k k') eqn:E.
  - apply String.eqb_eq in E. split; eauto.
  - apply String.eqb_neq in E. split; [auto|]. intros [H|H]; [congruence|assumption].
Qed.

Lemma dict_keys_update : forall {V} k (other d : dict V),
  In k (dict_keys (dict_update d other))
  <-> In k (dict_keys d) \/ In k (dict_keys other).
Proof.
  intros V k other. unfold dict_update.
  induction other as [|[k0 v0] other IH]; intros d; simpl.
  - tauto.
  - rewrite IH, dict_keys_set. intuition (subst; auto).
Qed.

Lemma dict_keys_filter : forall {V} (keep : string -> bool) k (d : dict V),
  In k (dict_keys (filter (fun kv => keep (fst kv)) d))
  <-> In k (dict_keys d) /\ keep k = true.
Proof.
  intros V keep k d. unfold dict_keys. rewrite !in_map_iff. split.
  - intros [[k0 v0] [E H]]. simpl in E. subst k0.
    apply filter_In in H. destruct H as [H K]. split; [|exact K].
    exists (k, v0). auto.
  - intros [[[k0 v0] [E H]] K]. simpl in E. subst k0.
    exists (k, v0). split; [reflexivity|]. apply filter_In. auto.
Qed.

(** ** The evaluation environment *)

(** The entry [__builtins__] of the environment is [None], whatever
    [math.__dict__] holds: its names that start with two underscores are
    filtered out before the update. *)
Lemma safe_env_builtins : forall math_dict,
  dict_get "__builtins__" (safe_env math_dict) = Some VNone.
Proof.
  intros math_dict. unfold safe_env.
  rewrite dict_get_update_other; [reflexivity|].
  unfold allowed_names, dict_of.
  pose proof (dict_keys_filter (fun k => negb (startswith k "__"))
                "__builtins__" math_dict) as F.
  cbv beta in F.
  rewrite !dict_keys_update, F. simpl.
  intros [[[]|[H|[H|[H|[H|[]]]]]]|[[]|[_ H]]]; discriminate.
Qed.

(** C7 as stated fails: [__builtins__] resolves although it is none of
    [abs], [round], [min], [max] nor a public name of [math], and an
    attribute of a value is reachable from an expression. *)
Lemma builtins_name_is_exposed :
  arith_eval "__builtins__" (safe_env sample_math) [] = Some (Value VNone) /\
  ~ In "__builtins__" ["abs"; "round"; "min"; "max"] /\
  startswith "__builtins__" "_" = true /\
  arith_eval "(7).real" (safe_env sample_math) [] = Some (Value (VInt 7)).
Proof.
  split; [reflexivity|]. split; [|split; reflexivity].
  simpl. intros H. repeat (destruct H as [H|H]; [discriminate|]). exact H.
Qed.

(** ** The placement function *)

Lemma string_length_append : forall s t,
  String.length (s ++ t)%string = String.length s + String.length t.
Proof. induction s as [|c s IH]; intros t; simpl; [|rewrite IH]; reflexivity. Qed.

Lemma width_is_not_height : forall name : string,
  String.eqb (name ++ "_height")%string (name ++ "_width")%string = false.
Proof.
  induction name as [|c name IH]; simpl; [reflexivity|].
  rewrite Ascii.eqb_refl. exact IH.
Qed.

(** The keys [x_scale] and [y_scale] are new to a dictionary of a width and a
    height, whatever the surface is called. *)
Lemma scale_keys_are_new : forall (axis name : string),
  String.length axis = 1 ->
  String.eqb (axis ++ "_scale")%string (name ++ "_width")%string = false /\
  String.eqb (axis ++ "_scale")%string (name ++ "_height")%string = false.
Proof.
  intros axis name Haxis.
  destruct axis as [|a [|b axis]]; try discriminate.
  change (String a "" ++ "_scale")%string with (String a "_scale").
  split.
  - match goal with |- ?x = false => destruct x eqn:E; [|reflexivity] end.
    apply String.eqb_eq in E.
    assert (L := f_equal String.length E). rewrite string_length_append in L.
    destruct name as [|c [|c' name]]; simpl in L; try discriminate; try lia.
  - match goal with |- ?x = false => destruct x eqn:E; [|reflexivity] end.
    apply String.eqb_eq in E.
    assert (L := f_equal String.length E). rewrite string_length_append in L.
    destruct name as [|c name]; simpl in L; try discriminate; lia.
Qed.

Lemma dict_of_width_height : forall (name : string) (a b : value),
  dict_of [((name ++ "_width")%string, a); ((name ++ "_height")%string, b)]
  = [((name ++ "_width")%string, a); ((name ++ "_height")%string, b)].
Proof.
  intros name a b. unfold dict_of, dict_update. simpl.
  rewrite width_is_not_height. reflexivity.
Qed.

Lemma dict_set_scales : forall (name : string) (a b sx sy : value),
  dict_set "y_scale" sy
    (dict_set "x_scale" sx
       [((name ++ "_width")%string, a); ((name ++ "_height")%string, b)])
  = [((name ++ "_width")%string, a); ((name ++ "_height")%string, b)]
    ++ [("x_scale", sx); ("y_scale", sy)].
Proof.
  intros name a b sx sy.
  destruct (scale_keys_are_new "x" name eq_refl) as [X1 X2].
  destruct (scale_keys_are_new "y" name eq_refl) as [Y1 Y2].
  change ("x" ++ "_scale")%string with "x_scale" in X1, X2.
  change ("y" ++ "_scale")%string with "y_scale" in Y1, Y2.
  cbn [dict_set]. rewrite X1, X2. cbn [dict_set]. rewrite Y1, Y2.
  reflexivity.
Qed.

(** Performing one evaluation in two worlds that print alike, then going on
    with continuations that agree on such worlds. *)
Lemma observe_bind_perform :
  forall {A} o (d : ref) (V : dict value) (k1 k2 : value -> M A) w1 w2,
    same_io w1 w2 ->
    heap w1 d = V ->
    (forall v w1' w2',
        same_io w1' w2' -> heap w1' d = V ->
        observe (k1 v w1') = observe (k2 v w2')) ->
    observe (bind (perform o) k1 w1) = observe (bind (perform o) k2 w2).
Proof.
  intros A [[c out] up] d V k1 k2 w1 w2 [Hout Hup] Hheap Hk.
  unfold bind, perform. destruct c as [v| |].
  - apply Hk; [split; simpl; congruence | exact Hheap].
  - unfold observe. simpl. rewrite Hout, Hup. reflexivity.
  - unfold observe. simpl. rewrite Hout, Hup. reflexivity.
Qed.

Section Placement.

Variable py_eval : string -> dict value -> dict value -> eval_result.
Variable float_repr : float -> string.
Variable exn_str : exn -> string.
Variable math_dict : dict value.

Local Notation "'reval'" := (restricted_eval py_eval float_repr exn_str math_dict).
Local Notation "'eval_of'" := (evaluate py_eval float_repr exn_str math_dict).

Lemma heap_set_same : forall h d V, heap_set h d V d = V.
Proof. intros h d V. unfold heap_set. rewrite Nat.eqb_refl. reflexivity. Qed.

Lemma bind_restricted_eval : forall {A} expression d (k : value -> M A) w,
  bind (reval expression d) k w
  = bind (perform (eval_of expression (heap w d))) k w.
Proof.
  intros A expression d k w. unfold bind.
  rewrite restricted_eval_evaluate. reflexivity.
Qed.

(** The two stores that extend the dictionary of a width and a height. *)
Lemma extend_with_scales :
  forall {A} (d : ref) (name : string) (a b sx sy : value) (k : M A) w1,
    heap w1 d = [((name ++ "_width")%string, a); ((name ++ "_height")%string, b)] ->
    exists w3,
      (setitem d "x_scale" sx ;;; setitem d "y_scale" sy ;;; k) w1 = k w3 /\
      heap w3 d = heap w1 d ++ [("x_scale", sx); ("y_scale", sy)] /\
      stdout w3 = stdout w1 /\
      pygame_initialised w3 = pygame_initialised w1.
Proof.
  intros A d name a b sx sy k w1 Hheap.
  exists (World (heap_set (heap_set (heap w1) d (dict_set "x_scale" sx (heap w1 d)))
                   d (dict_set "y_scale" sy (dict_set "x_scale" sx (heap w1 d))))
                (next_ref w1) (stdout w1) (pygame_initialised w1)).
  repeat split.
  - unfold bind, setitem. simpl. rewrite heap_set_same. reflexivity.
  - simpl. rewrite heap_set_same, Hheap. apply dict_set_scales.
Qed.

Lemma observe_ret : forall {A} (a : A) w1 w2,
  same_io w1 w2 -> observe (ret a w1) = observe (ret a w2).
Proof.
  intros A a w1 w2 [Hout Hup]. unfold observe, ret. simpl.
  rewrite Hout, Hup. reflexivity.
Qed.

(** C3: the placement function does what the specification lays out, in that
    order: the two scale expressions are evaluated, x then y, against the
    mapping of the width and the height alone; the mapping is extended with
    [x_scale] and [y_scale] bound to the two results; the two position
    expressions are then evaluated, x then y, against the extended mapping;
    and a failure at any step ends the run there.  The two runs end alike
    and print alike. *)
Theorem placement_evaluates_scales_first :
  forall surface x_pos y_pos x_scale y_scale surface_name w,
    observe
      (get_scale_and_position_as_function_of_pygame_surface_dimensions
         py_eval float_repr exn_str math_dict
         surface x_pos y_pos x_scale y_scale surface_name w)
    = observe
        (compute_placement py_eval float_repr exn_str math_dict
           (get_width surface) (get_height surface)
           x_pos y_pos x_scale y_scale surface_name w).
Proof.
  intros surface xp yp xs ys name w.
  unfold get_scale_and_position_as_function_of_pygame_surface_dimensions,
    compute_placement.
  set (mapping := [((name ++ "_width")%string, VInt (get_width surface));
                   ((name ++ "_height")%string, VInt (get_height surface))]).
  set (d := next_ref w).
  set (w1 := World (heap_set (heap w) d (dict_of mapping)) (S d)
                   (stdout w) (pygame_initialised w)).
  rewrite (bind_run (new_dict mapping) _ w (Normal d) w1 eq_refl).
  assert (Hheap : heap w1 d = mapping).
  { simpl. rewrite heap_set_same. apply dict_of_width_height. }
  assert (Hio : same_io w1 w) by (split; reflexivity).
  rewrite bind_restricted_eval, Hheap.
  apply (observe_bind_perform _ d mapping); [exact Hio | exact Hheap |].
  clear w1 Hheap Hio. intros sx w1 w2 Hio Hheap.
  rewrite bind_restricted_eval, Hheap.
  apply (observe_bind_perform _ d mapping); [exact Hio | exact Hheap |].
  clear w1 w2 Hheap Hio. intros sy w1 w2 Hio Hheap.
  set (extended := mapping ++ [("x_scale", sx); ("y_scale", sy)]).
  destruct (extend_with_scales d name _ _ sx sy
              (x <- reval xp d ;; y <- reval yp d ;; ret (x, y, sx, sy))
              w1 Hheap) as [w3 [Hset [Hheap3 [Hout3 Hup3]]]].
  rewrite Hset. rewrite Hheap in Hheap3. fold extended in Hheap3.
  assert (Hio3 : same_io w3 w2).
  { destruct Hio as [Hout Hup]. split; congruence. }
  rewrite bind_restricted_eval, Hheap3.
  apply (observe_bind_perform _ d extended); [exact Hio3 | exact Hheap3 |].
  clear. intros x w1 w2 Hio Hheap.
  rewrite bind_restricted_eval, Hheap.
  apply (observe_bind_perform _ d extended); [exact Hio | exact Hheap |].
  clear. intros y w1 w2 Hio _.
  apply observe_ret. exact Hio.
Qed.

(** *** Runs in which every evaluation returns *)

Lemma evaluate_value : forall expression mapping substituted v,
  extends_fragment py_eval ->
  fst (substitute float_repr expression 0 (World (fun _ => mapping) 1 [] true))
  = Normal substituted ->
  arith_eval substituted (safe_env math_dict) [] = Some (Value v) ->
  eval_of expression mapping = (Normal v, [], true).
Proof.
  intros expression mapping substituted v Hfrag Hsub Heval.
  unfold evaluate, restricted_eval.
  rewrite (bind_run _ _ _ _ _ (substitute_run float_repr expression 0 _)), Hsub.
  unfold try_except, eval_call.
  rewrite (Hfrag _ _ _ _ (safe_env_builtins math_dict) Heval). reflexivity.
Qed.

Lemma perform_value : forall {A} v (k : value -> M A) w,
  bind (perform (Normal v, [], true)) k w = k v w.
Proof.
  intros A v k w. unfold bind, perform.
  rewrite app_nil_r, andb_true_r, world_eta. reflexivity.
Qed.

Lemma placement_returns :
  forall surface x_pos y_pos x_scale y_scale surface_name w sx sy x y,
    let mapping :=
      [((surface_name ++ "_width")%string, VInt (get_width surface));
       ((surface_name ++ "_height")%string, VInt (get_height surface))] in
    let extended := mapping ++ [("x_scale", sx); ("y_scale", sy)] in
    eval_of x_scale mapping = (Normal sx, [], true) ->
    eval_of y_scale mapping = (Normal sy, [], true) ->
    eval_of x_pos extended = (Normal x, [], true) ->
    eval_of y_pos extended = (Normal y, [], true) ->
    observe
      (get_scale_and_position_as_function_of_pygame_surface_dimensions
         py_eval float_repr exn_str math_dict
         surface x_pos y_pos x_scale y_scale surface_name w)
    = (Normal (x, y, sx, sy), stdout w, pygame_initialised w).
Proof.
  intros surface xp yp xs ys name w sx sy x y mapping extended Hsx Hsy Hx Hy.
  unfold get_scale_and_position_as_function_of_pygame_surface_dimensions.
  fold mapping.
  set (d := next_ref w).
  set (w1 := World (heap_set (heap w) d (dict_of mapping)) (S d)
                   (stdout w) (pygame_initialised w)).
  rewrite (bind_run (new_dict mapping) _ w (Normal d) w1 eq_refl).
  assert (Hheap : heap w1 d = mapping).
  { simpl. rewrite heap_set_same. apply dict_of_width_height. }
  rewrite bind_restricted_eval, Hheap, Hsx, perform_value.
  rewrite bind_restricted_eval, Hheap, Hsy, perform_value.
  destruct (extend_with_scales d name _ _ sx sy
              (x <- reval xp d ;; y <- reval yp d ;; ret (x, y, sx, sy))
              w1 Hheap) as [w3 [Hset [Hheap3 [Hout3 Hup3]]]].
  rewrite Hset. rewrite Hheap in Hheap3. fold extended in Hheap3.
  rewrite bind_restricted_eval, Hheap3, Hx, perform_value.
  rewrite bind_restricted_eval, Hheap3, Hy, perform_value.
  unfold observe, ret. simpl. rewrite Hout3, Hup3. reflexivity.
Qed.

(** C4: on a surface 800 wide and 600 high, with the position expressions
    [surface_width/2] and [surface_height/2] and both scale expressions [1],
    the function returns [(400.0, 300.0, 1, 1)], in the order x, y, x scale,
    y scale, and prints nothing. *)
Theorem placement_at_centre : forall w,
  extends_fragment py_eval ->
  observe
    (get_scale_and_position_as_function_of_pygame_surface_dimensions
       py_eval float_repr exn_str math_dict
       {| get_width := 800; get_height := 600 |}
       "surface_width/2" "surface_height/2" "1" "1" default_surface_name w)
  = (Normal (VFloat 400, VFloat 300, VInt 1, VInt 1),
     stdout w, pygame_initialised w).
Proof.
  intros w Hfrag.
  apply placement_returns.
  - apply (evaluate_value _ _ "1" _ Hfrag); vm_compute; reflexivity.
  - apply (evaluate_value _ _ "1" _ Hfrag); vm_compute; reflexivity.
  - apply (evaluate_value _ _ "800/2" _ Hfrag); vm_compute; reflexivity.
  - apply (evaluate_value _ _ "600/2" _ Hfrag); vm_compute; reflexivity.
Qed.

(** The example of C3: the position expression [x_scale*10] is evaluated
    with [x_scale] bound to the value of [surface_width/100]. *)
Lemma position_sees_scale : forall w,
  extends_fragment py_eval ->
  float_repr 8 = "8.0" ->
  observe
    (get_scale_and_position_as_function_of_pygame_surface_dimensions
       py_eval float_repr exn_str math_dict
       {| get_width := 800; get_height := 600 |}
       "x_scale*10" "y_scale" "surface_width/100" "2" default_surface_name w)
  = (Normal (VFloat 80, VInt 2, VFloat 8, VInt 2),
     stdout w, pygame_initialised w).
Proof.
  intros w Hfrag Hrepr.
  apply placement_returns.
  - apply (evaluate_value _ _ "800/100" _ Hfrag); vm_compute; reflexivity.
  - apply (evaluate_value _ _ "2" _ Hfrag); vm_compute; reflexivity.
  - apply (evaluate_value _ _ "8.0*10" _ Hfrag); [|vm_compute; reflexivity].
    vm_compute. rewrite Hrepr. vm_compute. reflexivity.
  - apply (evaluate_value _ _ "2" _ Hfrag); vm_compute; reflexivity.
Qed.

End Placement.

Lemma fragment_eval_extends : extends_fragment fragment_eval.
Proof.
  intros expression globals locals r _ H. unfold fragment_eval. rewrite H.
  reflexivity.
Qed.

Lemma placement_at_centre_witness :
  observe
    (get_scale_and_position_as_function_of_pygame_surface_dimensions
       fragment_eval sample_float_repr sample_exn_str sample_math
       {| get_width := 800; get_height := 600 |}
       "surface_width/2" "surface_height/2" "1" "1" default_surface_name
       (World (fun _ => []) 0 [] true))
  = (Normal (VFloat 400, VFloat 300, VInt 1, VInt 1), [], true).
Proof.
  exact (placement_at_centre fragment_eval sample_float_repr sample_exn_str
           sample_math (World (fun _ => []) 0 [] true) fragment_eval_extends).
Defined.

(** The example of C3 and the sibling of C5 on the sample runtime. *)
Example position_sees_scale_sample :
  observe
    (get_scale_and_position_as_function_of_pygame_surface_dimensions
       fragment_eval sample_float_repr sample_exn_str sample_math
       {| get_width := 800; get_height := 600 |}
       "x_scale*10" "y_scale" "surface_width/100" "2" default_surface_name
       (World (fun _ => []) 0 [] true))
  = (Normal (VFloat 80, VInt 2, VFloat 8, VInt 2), [], true).
Proof.
  exact (position_sees_scale fragment_eval sample_float_repr sample_exn_str
           sample_math (World (fun _ => []) 0 [] true) fragment_eval_extends
           eq_refl).
Qed.

Example import_os_on_a_mapping :
  restricted_eval fragment_eval sample_float_repr sample_exn_str sample_math
    "__import__('os')" 0 (World (fun _ => [("x", VInt 1)]) 1 [] true)
  = (SysExit,
     World (fun _ => [("x", VInt 1)]) 1
       ["Encountered 'name '__import__' is not available' error in evaluating expression : __import__('os')"]
       false).
Proof. vm_compute. reflexivity. Qed.

(** ** The substitution, word by word *)

Lemma chars_str_of : forall t, chars (str_of t) = t.
Proof. exact list_ascii_of_string_of_list_ascii. Qed.

Lemma str_of_chars : forall s, str_of (chars s) = s.
Proof. exact string_of_list_ascii_of_string. Qed.

Lemma chunks_well_chunked : forall s, well_chunked (chunks s).
Proof.
  induction s as [|c s IH]; simpl; [exact I|].
  destruct (is_word c) eqn:Hc.
  - destruct (chunks s) as [|[w|c'] r]; simpl in *.
    + repeat split; [discriminate | rewrite Hc; reflexivity].
    + destruct IH as [Hw [Hall [Hadj Hr]]].
      repeat split; [discriminate | rewrite Hc; exact Hall | exact Hadj | exact Hr].
    + repeat split; [discriminate | rewrite Hc; reflexivity | apply IH | apply IH].
  - split; [exact Hc | exact IH].
Qed.

Lemma unchunk_chunks : forall s, unchunk (chunks s) = s.
Proof.
  unfold unchunk. induction s as [|c s IH]; simpl; [reflexivity|].
  destruct (is_word c).
  - destruct (chunks s) as [|[w|c'] r]; simpl in *; rewrite <- IH; reflexivity.
  - simpl. rewrite IH. reflexivity.
Qed.

Lemma strip_prefix_app : forall k s, strip_prefix k (k ++ s) = Some s.
Proof.
  induction k as [|a k IH]; intros s; simpl; [reflexivity|].
  rewrite Ascii.eqb_refl. apply IH.
Qed.

Lemma strip_prefix_some : forall k s rest,
  strip_prefix k s = Some rest -> s = k ++ rest.
Proof.
  induction k as [|a k IH]; intros s rest H; simpl in H.
  - injection H as H. subst. reflexivity.
  - destruct s as [|b s]; [discriminate|].
    destruct (Ascii.eqb a b) eqn:E; [|discriminate].
    apply Ascii.eqb_eq in E. subst b. simpl. f_equal. apply IH. exact H.
Qed.

Lemma last_char_word : forall k prev,
  k <> [] -> forallb is_word k = true -> word_before (last_char prev k) = true.
Proof.
  unfold last_char.
  induction k as [|a k IH]; intros prev Hk Hall; [contradiction|].
  simpl in *. apply andb_true_iff in Hall. destruct Hall as [Ha Hall].
  destruct k as [|b k]; [simpl; exact Ha|].
  apply IH; [discriminate | exact Hall].
Qed.

Lemma last_char_app : forall k1 k2 prev,
  last_char prev (k1 ++ k2) = last_char (last_char prev k1) k2.
Proof. intros k1 k2 prev. unfold last_char. apply fold_left_app. Qed.

(** A word [k] read at the start of the word [wd] followed by something that
    is not a word character: the closing boundary holds exactly when [k] is
    all of [wd]. *)
Lemma word_prefix_boundary : forall k wd rest rest' prev,
  k <> [] -> forallb is_word k = true ->
  forallb is_word wd = true -> word_at rest = false ->
  strip_prefix k (wd ++ rest) = Some rest' ->
  at_boundary (last_char prev k) rest' = true ->
  k = wd.
Proof.
  induction k as [|a k IH]; intros wd rest rest' prev Hk Hall Hwd Hrest Hp Hb;
    [contradiction|].
  simpl in Hall. apply andb_true_iff in Hall. destruct Hall as [Ha Hall].
  destruct wd as [|b wd].
  - simpl in Hp. destruct rest as [|r rest]; [discriminate|].
    destruct (Ascii.eqb a r) eqn:E; [|discriminate].
    apply Ascii.eqb_eq in E. subst r. simpl in Hrest. congruence.
  - simpl in Hp, Hwd. apply andb_true_iff in Hwd. destruct Hwd as [Hb' Hwd].
    destruct (Ascii.eqb a b) eqn:E; [|discriminate].
    apply Ascii.eqb_eq in E. subst b. f_equal.
    destruct k as [|a' k].
    + simpl in Hp. injection Hp as Hp. subst rest'.
      unfold at_boundary, last_char in Hb. simpl in Hb. rewrite Ha in Hb.
      destruct wd as [|b wd]; [reflexivity|].
      simpl in Hb, Hwd. apply andb_true_iff in Hwd. destruct Hwd as [Hb2 _].
      rewrite Hb2 in Hb. discriminate.
    + apply (IH wd rest rest' (Some a));
        solve [assumption | discriminate | exact Hb].
Qed.

Lemma first_alternative_at_end : forall p prev must_advance,
  words_only p ->
  first_alternative p prev [] must_advance = None.
Proof.
  intros p prev ma. induction p as [|k p' IH]; intros Hp; simpl; [reflexivity|].
  inversion Hp as [|k0 p0 [Hk _] Hp']; subst.
  destruct k as [|a k]; [contradiction|]. simpl. apply IH. exact Hp'.
Qed.

Lemma first_alternative_at_sep : forall p prev c s must_advance,
  words_only p ->
  is_word c = false ->
  first_alternative p prev (c :: s) must_advance = None.
Proof.
  intros p prev c s ma Hp Hc. induction p as [|k p' IH]; simpl; [reflexivity|].
  inversion Hp as [|k0 p0 [Hk Hall] Hp']; subst.
  destruct k as [|a k]; [contradiction|].
  simpl in Hall. apply andb_true_iff in Hall. destruct Hall as [Ha _].
  cbn [strip_prefix]. destruct (Ascii.eqb a c) eqn:E.
  - apply Ascii.eqb_eq in E. subst c. congruence.
  - apply IH. exact Hp'.
Qed.

Lemma first_alternative_at_word : forall p prev wd rest,
  words_only p ->
  wd <> [] -> forallb is_word wd = true -> word_at rest = false ->
  (In wd p -> first_alternative p prev (wd ++ rest) false = Some wd) /\
  (~ In wd p -> first_alternative p prev (wd ++ rest) false = None).
Proof.
  intros p prev wd rest Hp Hwd Hall Hrest.
  induction p as [|k p' IH]; simpl; [split; [intros [] | reflexivity]|].
  inversion Hp as [|k0 p0 [Hk Hkall] Hp']; subst.
  specialize (IH Hp').
  assert (own : strip_prefix wd (wd ++ rest) = Some rest
                /\ at_boundary (last_char prev wd) rest = true).
  { split; [apply strip_prefix_app|].
    unfold at_boundary. rewrite (last_char_word wd prev Hwd Hall), Hrest.
    reflexivity. }
  destruct (strip_prefix k (wd ++ rest)) as [rest'|] eqn:Hstrip.
  - cbn [negb orb]. rewrite andb_true_r.
    destruct (at_boundary (last_char prev k) rest') eqn:Hb.
    + assert (k = wd)
        by (eapply word_prefix_boundary; eassumption).
      subst k. split; [reflexivity|]. intros H. exfalso. apply H. left. reflexivity.
    + split.
      * intros [H|H]; [|apply IH; exact H].
        subst k. destruct own as [O1 O2]. rewrite O1 in Hstrip.
        injection Hstrip as Hstrip. subst rest'. congruence.
      * intros H. apply IH. intros H'. apply H. right. exact H'.
  - split.
    + intros [H|H]; [|apply IH; exact H].
      subst k. destruct own as [O1 _]. congruence.
    + intros H. apply IH. intros H'. apply H. right. exact H'.
Qed.

Section WordByWord.

(** A pattern whose alternatives are words, a callback that answers from a
    mapping and leaves the world [w] alone. *)
Variable p : pattern.
Variable repl : text -> M text.
Variable w : world.
Variable str : value -> string.
Variable mapping : dict value.

Hypothesis p_words : words_only p.
Hypothesis p_keys :
  forall wd, In wd p <-> exists v, dict_get (str_of wd) mapping = Some v.
Hypothesis repl_reads :
  forall k, repl k w
            = (match dict_get (str_of k) mapping with
               | Some v => Normal (chars (str v))
               | None => Raised (KeyError (str_of k))
               end, w).

Lemma scan_through_word : forall wd prev rest out,
  word_before prev = true -> forallb is_word wd = true ->
  sub_scan p repl (last_char prev wd) 0 rest w = (Normal out, w) ->
  sub_scan p repl prev 0 (wd ++ rest) w = (Normal (wd ++ out), w).
Proof.
  induction wd as [|c wd IH]; intros prev rest out Hprev Hall Hrest.
  - exact Hrest.
  - simpl in Hall. apply andb_true_iff in Hall. destruct Hall as [Hc Hall].
    simpl. unfold match_here, at_boundary. simpl. rewrite Hprev, Hc. simpl.
    rewrite (bind_run _ _ _ _ _ (IH (Some c) rest out Hc Hall Hrest)).
    reflexivity.
Qed.

Lemma scan_past_match : forall wd prev rest,
  sub_scan p repl prev (List.length wd) (wd ++ rest) w
  = sub_scan p repl (last_char prev wd) 0 rest w.
Proof.
  induction wd as [|c wd IH]; intros prev rest; [destruct rest; reflexivity|].
  simpl. apply IH.
Qed.

(** The scan of a well cut text replaces the words that are keys and copies
    the rest. *)
Lemma scan_chunks : forall cs prev,
  well_chunked cs ->
  match cs with Word _ :: _ => word_before prev = false | _ => True end ->
  sub_scan p repl prev 0 (unchunk cs) w
  = (Normal (List.concat (map (replace_chunk str mapping) cs)), w).
Proof.
  unfold unchunk.
  induction cs as [|[wd|c] cs IH]; intros prev Hwell Hprev.
  - simpl. unfold match_here. rewrite first_alternative_at_end by exact p_words.
    destruct (at_boundary prev []); reflexivity.
  - destruct Hwell as [Hwd [Hall [Hadj Hwell]]].
    assert (Hrest : word_at (List.concat (map chunk_text cs)) = false).
    { destruct cs as [|[wd'|c'] cs']; [reflexivity | contradiction |].
      simpl. apply Hwell. }
    assert (Hnext : forall prev',
      sub_scan p repl prev' 0 (List.concat (map chunk_text cs)) w
      = (Normal (List.concat (map (replace_chunk str mapping) cs)), w)).
    { intros prev'. apply IH; [exact Hwell|].
      destruct cs as [|[wd'|c'] cs']; [exact I | contradiction | exact I]. }
    destruct (first_alternative_at_word p prev wd _ p_words Hwd Hall Hrest)
      as [Hin Hout].
    destruct wd as [|c wd]; [contradiction|].
    cbn [map chunk_text List.concat replace_chunk].
    change ((c :: wd) ++ List.concat (map chunk_text cs))
      with (c :: (wd ++ List.concat (map chunk_text cs))) in *.
    cbn [sub_scan]. unfold match_here, at_boundary.
    cbn [word_at]. simpl in Hall. apply andb_true_iff in Hall.
    destruct Hall as [Hc Hall]. rewrite Hprev, Hc. cbn [xorb].
    destruct (dict_get (str_of (c :: wd)) mapping) as [v|] eqn:Hget.
    + rewrite Hin by (apply p_keys; eauto).
      rewrite (bind_run _ _ _ _ _ (repl_reads (c :: wd))), Hget.
      cbn [List.length Nat.sub]. rewrite Nat.sub_0_r.
      rewrite (bind_run _ _ _ _ _
                 (eq_trans (scan_past_match wd (Some c) _) (Hnext _))).
      reflexivity.
    + rewrite Hout by (intros H; apply p_keys in H; destruct H; congruence).
      rewrite (bind_run _ _ _ _ _
                 (scan_through_word wd (Some c) _ _ Hc Hall (Hnext _))).
      reflexivity.
  - destruct Hwell as [Hc Hwell].
    cbn [map chunk_text List.concat replace_chunk app].
    cbn [sub_scan]. unfold match_here.
    rewrite first_alternative_at_sep by (exact p_words || exact Hc).
    assert (Hnext : sub_scan p repl (Some c) 0 (List.concat (map chunk_text cs)) w
      = (Normal (List.concat (map (replace_chunk str mapping) cs)), w)).
    { apply IH; [exact Hwell|].
      destruct cs as [|[wd'|c'] cs']; [exact I | exact Hc | exact I]. }
    destruct (at_boundary prev _); rewrite (bind_run _ _ _ _ _ Hnext); reflexivity.
Qed.

End WordByWord.

Lemma is_name_words : forall k,
  is_name k = true -> chars k <> [] /\ forallb is_word (chars k) = true.
Proof.
  intros k H. unfold is_name in H.
  destruct (chars k) as [|c t] eqn:E; [discriminate|].
  split; [discriminate | exact H].
Qed.

Lemma names_compile_to_words : forall keys,
  keys <> [] ->
  Forall (fun k => is_name k = true) keys ->
  re_compile keys = map chars keys /\ words_only (re_compile keys).
Proof.
  intros keys Hne Hnames.
  assert (E : re_compile keys = map chars keys)
    by (destruct keys; [contradiction | reflexivity]).
  split; [exact E|]. rewrite E. unfold words_only.
  apply Forall_map. revert Hnames. apply Forall_impl. exact is_name_words.
Qed.

Lemma in_compiled_keys : forall (mapping : dict value) wd,
  In wd (map chars (dict_keys mapping))
  <-> exists v, dict_get (str_of wd) mapping = Some v.
Proof.
  intros mapping wd. rewrite dict_get_in_keys, in_map_iff. split.
  - intros [k [E H]]. subst wd. rewrite str_of_chars. exact H.
  - intros H. exists (str_of wd). split; [apply chars_str_of | exact H].
Qed.



Section Substitution.

Variable float_repr : float -> string.

(** With names for keys, the substitution of a mapping that is not empty
    completes, with the word by word replacement for a result. *)
Lemma substitute_names : forall expression variables w,
  heap w variables <> [] ->
  Forall (fun k => is_name k = true) (dict_keys (heap w variables)) ->
  substitute float_repr expression variables w
  = (Normal (substituted (py_str float_repr) (heap w variables) expression), w).
Proof.
  intros expression variables w Hne Hnames.
  assert (Hkeys : dict_keys (heap w variables) <> [])
    by (destruct (heap w variables); [contradiction | discriminate]).
  destruct (names_compile_to_words _ Hkeys Hnames) as [Hp Hwords].
  unfold substitute, keys_of, re_sub.
  change (bind _ _ w) with
    (bind (sub_scan (re_compile (dict_keys (heap w variables)))
             (replace_var float_repr variables) None 0 (chars expression))
          (fun out => ret (str_of out)) w).
  assert (Hscan :
    sub_scan (re_compile (dict_keys (heap w variables)))
      (replace_var float_repr variables) None 0
      (unchunk (chunks (chars expression))) w
    = (Normal (List.concat (map (replace_chunk (py_str float_repr) (heap w variables))
                              (chunks (chars expression)))), w)).
  { apply (scan_chunks _ _ w (py_str float_repr) (heap w variables)).
    - exact Hwords.
    - intros wd. rewrite Hp. apply in_compiled_keys.
    - intros k. apply replace_var_run.
    - apply chunks_well_chunked.
    - destruct (chunks (chars expression)) as [|[wd|c] cs];
        [exact I | reflexivity | exact I]. }
  rewrite unchunk_chunks in Hscan.
  rewrite (bind_run _ _ _ _ _ Hscan). reflexivity.
Qed.


End Substitution.


(** ** Decimal digits *)

Lemma digit_char : forall r : N,
  (r < 10)%N ->
  is_digit (ascii_of_N (48 + r)) = true /\
  digit_value (ascii_of_N (48 + r)) = Z.of_N r /\
  (Ascii.eqb (ascii_of_N (48 + r)) "0"%char = true -> r = 0%N).
Proof.
  intros r H.
  assert (E : (r = 0 \/ r = 1 \/ r = 2 \/ r = 3 \/ r = 4 \/ r = 5 \/ r = 6
               \/ r = 7 \/ r = 8 \/ r = 9)%N) by lia.
  repeat (destruct E as [E|E];
          [subst r; repeat split; intros; first [reflexivity | discriminate] |]).
  subst r. repeat split; intros; first [reflexivity | discriminate].
Qed.

Lemma int_of_digits_snoc : forall ds d,
  int_of_digits (ds ++ [d]) = (int_of_digits ds * 10 + digit_value d)%Z.
Proof. intros ds d. unfold int_of_digits. rewrite fold_left_app. reflexivity. Qed.

Lemma single_digit : forall n : N,
  (n < 10)%N -> digits_of n [ascii_of_N (48 + n)].
Proof.
  intros n H. destruct (digit_char n H) as [D1 [D2 D3]].
  repeat split.
  - discriminate.
  - cbn [forallb]. rewrite D1. reflexivity.
  - unfold int_of_digits. cbn [fold_left]. rewrite D2. lia.
  - intros c t E Hc. injection E as E _. subst c. apply D3. exact Hc.
Qed.

Lemma digits_fuel_S : forall fuel n acc,
  digits_fuel (S fuel) n acc
  = if (n <? 10)%N then ascii_of_N (48 + n mod 10) :: acc
    else digits_fuel fuel (n / 10) (ascii_of_N (48 + n mod 10) :: acc).
Proof. reflexivity. Qed.

Lemma digits_fuel_spec : forall fuel n acc,
  (n < 2 ^ N.of_nat (S fuel))%N ->
  exists ds, digits_fuel (S fuel) n acc = ds ++ acc /\ digits_of n ds.
Proof.
  induction fuel as [|fuel IH]; intros n acc Hn.
  - assert (H : (n < 10)%N) by (change (2 ^ N.of_nat 1)%N with 2%N in Hn; lia).
    rewrite digits_fuel_S.
    assert (L : (n <? 10)%N = true) by (apply N.ltb_lt; assumption).
    rewrite L, N.mod_small by assumption.
    exists [ascii_of_N (48 + n)]. split; [reflexivity | apply single_digit; exact H].
  - rewrite digits_fuel_S.
    destruct (n <? 10)%N eqn:L.
    + apply N.ltb_lt in L. rewrite N.mod_small by assumption.
      exists [ascii_of_N (48 + n)]. split; [reflexivity | apply single_digit; exact L].
    + apply N.ltb_ge in L.
      assert (Hr : (n mod 10 < 10)%N) by (apply N.mod_upper_bound; discriminate).
      destruct (digit_char _ Hr) as [D1 [D2 D3]].
      assert (Hq : (n / 10 < 2 ^ N.of_nat (S fuel))%N).
      { apply N.Div0.div_lt_upper_bound.
        replace (N.of_nat (S (S fuel))) with (N.succ (N.of_nat (S fuel))) in Hn by lia.
        rewrite N.pow_succ_r' in Hn. lia. }
      destruct (IH (n / 10)%N (ascii_of_N (48 + n mod 10) :: acc) Hq)
        as [ds [E [Hne [Hall [Hval Hlead]]]]].
      exists (ds ++ [ascii_of_N (48 + n mod 10)]). split.
      * rewrite E, <- app_assoc. reflexivity.
      * assert (Hq1 : (1 <= n / 10)%N).
        { apply N.div_le_lower_bound; lia. }
        repeat split.
        -- destruct ds; discriminate.
        -- rewrite forallb_app, Hall. cbn [forallb]. rewrite D1. reflexivity.
        -- rewrite int_of_digits_snoc, Hval, D2.
           rewrite (N.div_mod n 10) at 3 by discriminate. lia.
        -- intros c t Ec Hc. destruct ds as [|c' ds']; [contradiction|].
           injection Ec as Ec _. subst c'.
           specialize (Hlead c ds' eq_refl Hc). lia.
Qed.

Lemma decimal_digits : forall n, digits_of n (decimal n).
Proof.
  intros n. unfold decimal.
  destruct (digits_fuel_spec (N.to_nat (N.log2 n)) n []) as [ds [E H]].
  - rewrite Nat2N.inj_succ, N2Nat.id.
    destruct (N.eq_dec n 0) as [Z|NZ]; [subst n; reflexivity|].
    apply N.log2_spec. lia.
  - rewrite E, app_nil_r. exact H.
Qed.

(** ** Lexing the substituted text *)

Lemma chunks_head_not_word : forall s,
  word_at s = false ->
  match chunks s with Word _ :: _ => False | _ => True end.
Proof.
  intros [|c s] H; simpl; [exact I|].
  simpl in H. rewrite H. exact I.
Qed.

Lemma chunks_app : forall t s,
  word_at s = false -> chunks (t ++ s) = chunks t ++ chunks s.
Proof.
  intros t s Hs. induction t as [|c t IH]; simpl; [reflexivity|].
  rewrite IH. destruct (is_word c); [|reflexivity].
  destruct (chunks t) as [|[wd|c'] r]; simpl; try reflexivity.
  pose proof (chunks_head_not_word s Hs) as H.
  destruct (chunks s) as [|[wd|c'] r]; [reflexivity | contradiction | reflexivity].
Qed.

Lemma chunks_word : forall wd,
  wd <> [] -> forallb is_word wd = true -> chunks wd = [Word wd].
Proof.
  induction wd as [|c wd IH]; intros Hne Hall; [contradiction|].
  simpl in *. apply andb_true_iff in Hall. destruct Hall as [Hc Hall].
  rewrite Hc. destruct wd as [|c' wd]; [reflexivity|].
  rewrite IH by (discriminate || exact Hall). reflexivity.
Qed.

Lemma digit_is_word : forall c, is_digit c = true -> is_word c = true.
Proof.
  intros c H. unfold is_word. rewrite H. rewrite orb_true_r. reflexivity.
Qed.

Lemma digits_are_words : forall ds,
  forallb is_digit ds = true -> forallb is_word ds = true.
Proof.
  intros ds H. rewrite forallb_forall in *. intros c Hc.
  apply digit_is_word. apply H. exact Hc.
Qed.

(** The substituted text is cut as the original is, each key giving way to
    the chunks of its value. *)
Lemma chunks_substituted : forall str mapping cs,
  well_chunked cs ->
  chunks (List.concat (map (replace_chunk str mapping) cs))
  = flat_map (subst_chunk str mapping) cs.
Proof.
  intros str mapping. induction cs as [|[wd|c] cs IH]; intros Hwell.
  - reflexivity.
  - destruct Hwell as [Hne [Hall [Hadj Hwell]]].
    cbn [map List.concat flat_map].
    rewrite chunks_app, (IH Hwell).
    + f_equal. unfold replace_chunk, subst_chunk.
      destruct (dict_get (str_of wd) mapping); [reflexivity|].
      apply chunks_word; assumption.
    + destruct cs as [|[wd'|c'] cs']; [reflexivity | contradiction |].
      simpl. apply Hwell.
  - destruct Hwell as [Hc Hwell].
    cbn [map List.concat flat_map replace_chunk subst_chunk app chunks].
    rewrite Hc, (IH Hwell). reflexivity.
Qed.

Lemma dict_get_in : forall {V} k (v : V) d,
  dict_get k d = Some v -> In (k, v) d.
Proof.
  intros V k v d. induction d as [|[k0 v0] d IH]; simpl; [discriminate|].
  destruct (String.eqb k k0) eqn:E.
  - apply String.eqb_eq in E. subst k0. intros H. injection H as H. subst v0.
    left. reflexivity.
  - intros H. right. apply IH. exact H.
Qed.

Lemma lex_string_not_arithmetic : forall cs q acc toks,
  lex_string q acc cs = Some toks -> arithmetic toks = false.
Proof.
  induction cs as [|[wd|c] cs IH]; intros q acc toks H; simpl in H.
  - discriminate.
  - apply (IH _ _ _ H).
  - destruct (Ascii.eqb c q).
    + destruct (starts_with_quote cs); [discriminate|].
      destruct (lex cs); [|discriminate]. injection H as H. subst toks.
      reflexivity.
    + destruct (in_range 32 126 c && negb (Ascii.eqb c backslash));
        [apply (IH _ _ _ H) | discriminate].
Qed.

Lemma lex_sep : forall c rest,
  lex (Sep c :: rest)
  = if Ascii.eqb c " "%char || Ascii.eqb c (ascii_of_nat 9) then lex rest
    else if is_quote c then lex_string c [] rest
    else if Ascii.eqb c "+"%char then cons_token TPlus (lex rest)
    else if Ascii.eqb c "-"%char then cons_token TMinus (lex rest)
    else if Ascii.eqb c "%"%char then cons_token TPercent (lex rest)
    else if Ascii.eqb c "("%char then cons_token TLParen (lex rest)
    else if Ascii.eqb c ")"%char then cons_token TRParen (lex rest)
    else if Ascii.eqb c ","%char then cons_token TComma (lex rest)
    else if Ascii.eqb c "."%char then
      match rest with
      | Word w :: _ =>
          if is_identifier w && negb (is_keyword (str_of w))
          then cons_token TDot (lex rest)
          else None
      | _ => None
      end
    else if Ascii.eqb c "*"%char then
      match rest with
      | Sep c' :: rest' =>
          if Ascii.eqb c' "*"%char then cons_token TDoubleStar (lex rest')
          else cons_token TStar (lex rest)
      | _ => cons_token TStar (lex rest)
      end
    else if Ascii.eqb c "/"%char then
      match rest with
      | Sep c' :: rest' =>
          if Ascii.eqb c' "/"%char then cons_token TDoubleSlash (lex rest')
          else cons_token TSlash (lex rest)
      | _ => cons_token TSlash (lex rest)
      end
    else None.
Proof. reflexivity. Qed.

Lemma lex_word : forall w rest,
  lex (Word w :: rest)
  = if forallb is_digit w then
      let an_int :=
        if int_literal w && negb (starts_with_quote rest)
        then cons_token (TInt (int_of_digits w)) (lex rest)
        else None in
      match rest with
      | Sep c :: rest1 =>
          if Ascii.eqb c "."%char then
            match rest1 with
            | Word f :: rest' =>
                if forallb is_digit f && negb (starts_with_quote rest')
                then cons_token (TFloat (float_of_literal w f)) (lex rest')
                else None
            | _ => None
            end
          else an_int
      | _ => an_int
      end
    else if is_identifier w && negb (is_keyword (str_of w))
            && negb (starts_with_quote rest)
    then cons_token (TName (str_of w)) (lex rest)
    else None.
Proof. reflexivity. Qed.

Lemma lex_int_literal : forall ds cs,
  forallb is_digit ds = true -> int_literal ds = true ->
  starts_with_quote cs = false ->
  match cs with Sep c :: _ => Ascii.eqb c "."%char = false | _ => True end ->
  lex (Word ds :: cs) = cons_token (TInt (int_of_digits ds)) (lex cs).
Proof.
  intros ds cs Hds Hlit Hq Hdot. rewrite lex_word, Hds. cbv zeta.
  rewrite Hlit, Hq. cbn [andb negb].
  destruct cs as [|[wd|c] cs]; try reflexivity. rewrite Hdot. reflexivity.
Qed.

Section LexSubstituted.

Variable float_repr : float -> string.
Variable mapping : dict value.

Hypothesis keys_are_names :
  Forall (fun k => is_variable_name k = true) (dict_keys mapping).
Hypothesis values_are_plain :
  Forall (fun kv => plain_value float_repr (snd kv)) mapping.
Hypothesis values_within_limit :
  Forall (fun kv => value_within_limit (snd kv) = true) mapping.

Local Notation "'sigma'" := (subst_chunk (py_str float_repr) mapping).
Local Notation "'tau'" := (subst_token mapping).

Lemma key_is_name : forall k v,
  dict_get k mapping = Some v -> is_variable_name k = true.
Proof.
  intros k v H.
  assert (Hin : In k (dict_keys mapping)) by (apply dict_get_in_keys; eauto).
  rewrite Forall_forall in keys_are_names. apply keys_are_names. exact Hin.
Qed.

Lemma key_is_plain : forall k v,
  dict_get k mapping = Some v -> plain_value float_repr v.
Proof.
  intros k v H. apply dict_get_in in H.
  rewrite Forall_forall in values_are_plain.
  apply (values_are_plain (k, v) H).
Qed.

Lemma digits_are_no_key : forall wd,
  wd <> [] -> forallb is_digit wd = true ->
  dict_get (str_of wd) mapping = None.
Proof.
  intros wd Hne Hall.
  destruct (dict_get (str_of wd) mapping) as [v|] eqn:E; [|reflexivity].
  apply key_is_name in E. unfold is_variable_name in E.
  rewrite chars_str_of in E. apply andb_true_iff in E. destruct E as [E _].
  destruct wd as [|c wd]; [contradiction|].
  simpl in E, Hall. apply andb_true_iff in Hall. destruct Hall as [Hc _].
  rewrite Hc in E. discriminate.
Qed.

(** The chunks of the [str] of a plain value: the digits of an int, or the
    two runs of digits of a float around their point. *)
Lemma plain_value_chunks : forall v,
  plain_value float_repr v ->
  (exists n ds,
      v = VInt n /\ chunks (chars (py_str float_repr v)) = [Word ds]
      /\ forallb is_digit ds = true /\ is_int_literal ds = true
      /\ int_of_digits ds = n) \/
  (exists x whole frac,
      v = VFloat x
      /\ chunks (chars (py_str float_repr v)) = [Word whole; Sep "."%char; Word frac]
      /\ forallb is_digit whole = true /\ forallb is_digit frac = true
      /\ float_of_literal whole frac = x).
Proof.
  intros [n|x|s| |name|shown] H; simpl in H; try contradiction.
  - left. exists n, (decimal (Z.to_N n)).
    destruct (decimal_digits (Z.to_N n)) as [Hne [Hall [Hval Hlead]]].
    assert (Hstr : chars (py_str float_repr (VInt n)) = decimal (Z.to_N n)).
    { simpl. unfold int_str. destruct n; try (apply chars_str_of). lia. }
    rewrite Hstr. repeat split.
    + apply chunks_word; [exact Hne | apply digits_are_words; exact Hall].
    + exact Hall.
    + unfold is_int_literal. rewrite Hall. simpl.
      destruct (decimal (Z.to_N n)) as [|c t] eqn:E; [contradiction|].
      destruct (Ascii.eqb c "0"%char) eqn:Ec; [|reflexivity].
      simpl. rewrite Hval, (Hlead c t eq_refl Ec). reflexivity.
    + rewrite Hval. lia.
  - right. destruct H as [whole [frac [Hw [Hf [Hwd [Hfd [Hrepr Hval]]]]]]].
    exists x, whole, frac.
    assert (Hstr : chars (py_str float_repr (VFloat x)) = whole ++ "."%char :: frac).
    { simpl. rewrite Hrepr. apply chars_str_of. }
    rewrite Hstr. repeat split; try assumption.
    rewrite chunks_app by reflexivity.
    rewrite (chunks_word whole Hw (digits_are_words _ Hwd)).
    simpl. change (is_word "."%char) with false. cbv iota.
    rewrite (chunks_word frac Hf (digits_are_words _ Hfd)). reflexivity.
Qed.

(** The digits of an int of the mapping are a literal the fragment reads. *)
Lemma plain_int_literal : forall k n ds,
  dict_get k mapping = Some (VInt n) ->
  chunks (chars (py_str float_repr (VInt n))) = [Word ds] ->
  is_int_literal ds = true ->
  int_literal ds = true.
Proof.
  intros k n ds Hget Hc Hlit.
  pose proof (key_is_plain _ _ Hget) as Hplain. simpl in Hplain.
  assert (Hlim : value_within_limit (VInt n) = true).
  { apply dict_get_in in Hget. rewrite Forall_forall in values_within_limit.
    apply (values_within_limit (k, VInt n) Hget). }
  assert (Hds : ds = decimal (Z.to_N (Z.abs n))).
  { assert (Hstr : chars (py_str float_repr (VInt n)) = decimal (Z.to_N n)).
    { simpl. unfold int_str. destruct n; try (apply chars_str_of). lia. }
    rewrite Hstr in Hc.
    destruct (decimal_digits (Z.to_N n)) as [Hne [Hall _]].
    rewrite (chunks_word _ Hne (digits_are_words _ Hall)) in Hc.
    injection Hc as Hc. rewrite Z.abs_eq by exact Hplain. symmetry. exact Hc. }
  unfold int_literal. rewrite Hlit. simpl in Hlim. rewrite Hds. exact Hlim.
Qed.

Lemma subst_head_word : forall wd rest,
  exists wd' r, flat_map sigma (Word wd :: rest) = Word wd' :: r.
Proof.
  intros wd rest. cbn [flat_map subst_chunk].
  destruct (dict_get (str_of wd) mapping) as [v|] eqn:E; [|simpl; eauto].
  destruct (plain_value_chunks v (key_is_plain _ _ E))
    as [[n [ds [_ [Hc _]]]] | [x [wh [fr [_ [Hc _]]]]]]; rewrite Hc; simpl; eauto.
Qed.

Lemma subst_starts_with_quote : forall cs,
  starts_with_quote (flat_map sigma cs) = starts_with_quote cs.
Proof.
  intros [|[wd|c] cs]; [reflexivity | | reflexivity].
  destruct (subst_head_word wd cs) as [wd' [r E]]. rewrite E. reflexivity.
Qed.

Lemma cons_token_step : forall t t' (r r' : option (list token)) toks,
  (forall toks', r = Some toks' -> arithmetic toks' = true ->
                 r' = Some (map tau toks')) ->
  tau t = t' ->
  cons_token t r = Some toks -> arithmetic toks = true ->
  cons_token t' r' = Some (map tau toks).
Proof.
  intros t t' r r' toks IH Ht Hr Ha.
  destruct r as [toks'|]; [|discriminate]. simpl in Hr.
  injection Hr as Hr. subst toks. simpl in Ha.
  apply andb_true_iff in Ha. destruct Ha as [_ Ha].
  rewrite (IH toks' eq_refl Ha). simpl. rewrite Ht. reflexivity.
Qed.

Lemma lex_dot_not_arithmetic : forall rest toks,
  lex (Sep "."%char :: rest) = Some toks -> arithmetic toks = false.
Proof.
  intros rest toks H. rewrite lex_sep in H. simpl in H.
  destruct rest as [|[wd|c] rest]; try discriminate.
  destruct (is_identifier wd && negb (is_keyword (str_of wd))); [|discriminate].
  destruct (lex (Word wd :: rest)); [|discriminate].
  injection H as H. subst toks. reflexivity.
Qed.

(** Lexing commutes with the substitution on the texts of arithmetic. *)
Ltac token_step :=
  eapply cons_token_step; try eassumption; try reflexivity.

Lemma lex_substituted_bounded : forall n cs,
  List.length cs <= n ->
  well_chunked cs ->
  forall toks,
    lex cs = Some toks -> arithmetic toks = true ->
    lex (flat_map sigma cs) = Some (map tau toks).
Proof.
  induction n as [|n IH]; intros cs Hlen Hwell toks Hlex Ha.
  - destruct cs; [|simpl in Hlen; lia].
    simpl in Hlex. injection Hlex as Hlex. subst toks. reflexivity.
  - destruct cs as [|[wd|c] rest].
    + simpl in Hlex. injection Hlex as Hlex. subst toks. reflexivity.
    + destruct Hwell as [Hne [Hall [Hadj Hwell]]].
      simpl in Hlen.
      assert (IHrest : forall toks',
        lex rest = Some toks' -> arithmetic toks' = true ->
        lex (flat_map sigma rest) = Some (map tau toks'))
        by (intros toks'; apply IH; [lia | exact Hwell]).
      rewrite lex_word in Hlex.
      destruct (forallb is_digit wd) eqn:Hd.
      * (* a number *)
        cbn [flat_map subst_chunk].
        rewrite (digits_are_no_key wd Hne Hd). cbn [app].
        rewrite lex_word, Hd.
        destruct rest as [|[wd1|c1] rest1]; [| contradiction |].
        -- cbn zeta in *. cbn [flat_map] in *.
           destruct (int_literal wd && negb (starts_with_quote []));
             [|discriminate].
           token_step.
        -- cbn [flat_map subst_chunk app]. cbn zeta in *.
           destruct (Ascii.eqb c1 "."%char) eqn:Hdot.
           ++ destruct rest1 as [|[f|c2] rest2]; try discriminate.
              destruct Hwell as [_ [Hf [Hfall [_ Hwell2]]]].
              destruct (forallb is_digit f) eqn:Hfd; [|discriminate].
              cbn [flat_map subst_chunk].
              rewrite (digits_are_no_key f Hf Hfd). cbn [app].
              rewrite Hfd, subst_starts_with_quote.
              destruct (starts_with_quote rest2); [discriminate|].
              cbn [andb negb] in *.
              token_step.
              intros toks'. apply IH; [simpl in Hlen; lia | exact Hwell2].
           ++ change (starts_with_quote (Sep c1 :: flat_map sigma rest1))
                with (starts_with_quote (Sep c1 :: rest1)).
              destruct (int_literal wd && negb (starts_with_quote (Sep c1 :: rest1)));
                [|discriminate].
              token_step.
      * (* a name *)
        destruct (is_identifier wd && negb (is_keyword (str_of wd))) eqn:Hid;
          [|discriminate].
        destruct (starts_with_quote rest) eqn:Hq; [discriminate|].
        cbn [andb negb] in Hlex.
        assert (Hnodot :
          match flat_map sigma rest with
          | Sep c :: _ => Ascii.eqb c "."%char = false
          | _ => True
          end).
        { destruct rest as [|[wd1|c1] rest1]; [exact I | contradiction |].
          cbn [flat_map subst_chunk app].
          destruct (Ascii.eqb c1 "."%char) eqn:Hdot; [|reflexivity].
          apply Ascii.eqb_eq in Hdot. subst c1.
          destruct (lex (Sep "."%char :: rest1)) as [toks'|] eqn:E; [|discriminate].
          apply lex_dot_not_arithmetic in E.
          simpl in Hlex. injection Hlex as Hlex. subst toks.
          simpl in Ha. congruence. }
        cbn [flat_map subst_chunk].
        destruct (dict_get (str_of wd) mapping) as [v|] eqn:Hget.
        -- destruct (plain_value_chunks v (key_is_plain _ _ Hget))
             as [[k [ds [Hv [Hc [Hds [Hlit Hval]]]]]]
                | [x [wh [fr [Hv [Hc [Hwh [Hfr Hval]]]]]]]];
             rewrite Hc; cbn [app].
           ++ subst v.
              rewrite lex_int_literal;
                [| exact Hds | exact (plain_int_literal _ _ _ Hget Hc Hlit)
                 | rewrite subst_starts_with_quote; exact Hq | exact Hnodot].
              token_step.
              cbn [subst_token]. rewrite Hget, Hval. reflexivity.
           ++ rewrite lex_word, Hwh. cbv zeta. cbn [Ascii.eqb Bool.eqb]. cbv iota.
              rewrite Hfr, subst_starts_with_quote, Hq. cbn [andb negb].
              token_step.
              cbn [subst_token]. rewrite Hget, Hv, Hval. reflexivity.
        -- cbn [app]. rewrite lex_word, Hd, Hid, subst_starts_with_quote, Hq.
           cbn [andb negb].
           token_step.
           cbn [subst_token]. rewrite Hget. reflexivity.
    + destruct Hwell as [Hc Hwell]. simpl in Hlen.
      assert (IHrest : forall toks',
        lex rest = Some toks' -> arithmetic toks' = true ->
        lex (flat_map sigma rest) = Some (map tau toks'))
        by (intros toks'; apply IH; [lia | exact Hwell]).
      cbn [flat_map subst_chunk app].
      rewrite lex_sep in Hlex |- *.
      destruct (Ascii.eqb c " "%char || Ascii.eqb c (ascii_of_nat 9));
        [apply IHrest; assumption|].
      destruct (is_quote c).
      { apply lex_string_not_arithmetic in Hlex. congruence. }
      destruct (Ascii.eqb c "+"%char);
        [token_step|].
      destruct (Ascii.eqb c "-"%char);
        [token_step|].
      destruct (Ascii.eqb c "%"%char);
        [token_step|].
      destruct (Ascii.eqb c "("%char);
        [token_step|].
      destruct (Ascii.eqb c ")"%char);
        [token_step|].
      destruct (Ascii.eqb c ","%char);
        [token_step|].
      destruct (Ascii.eqb c "."%char).
      { destruct rest as [|[wd|c1] rest1]; try discriminate.
        destruct (is_identifier wd && negb (is_keyword (str_of wd)));
          [|discriminate].
        destruct (lex (Word wd :: rest1)); [|discriminate].
        injection Hlex as Hlex. subst toks. discriminate. }
      destruct (Ascii.eqb c "*"%char).
      { destruct rest as [|[wd|c1] rest1].
        - token_step.
        - destruct (subst_head_word wd rest1) as [wd' [r E]]. rewrite E, <- E.
          token_step.
        - cbn [flat_map subst_chunk app]. destruct (Ascii.eqb c1 "*"%char).
          + token_step.
            intros toks'. apply IH; [simpl in Hlen; lia | apply Hwell].
          + token_step. }
      destruct (Ascii.eqb c "/"%char); [|discriminate].
      destruct rest as [|[wd|c1] rest1].
      * token_step.
      * destruct (subst_head_word wd rest1) as [wd' [r E]]. rewrite E, <- E.
        token_step.
      * cbn [flat_map subst_chunk app]. destruct (Ascii.eqb c1 "/"%char).
        -- token_step.
           intros toks'. apply IH; [simpl in Hlen; lia | apply Hwell].
        -- token_step.
Qed.

Lemma lex_substituted : forall cs toks,
  well_chunked cs ->
  lex cs = Some toks -> arithmetic toks = true ->
  lex (flat_map sigma cs) = Some (map tau toks).
Proof.
  intros cs toks Hwell. apply (lex_substituted_bounded (List.length cs) cs);
    [apply Nat.le_refl | exact Hwell].
Qed.

End LexSubstituted.

(** ** Parsing the substituted tokens *)

Section ParseSubstituted.

Variable mapping : dict value.

Local Notation "'tau'" := (subst_token mapping).
Local Notation "'sub'" := (subst_expr mapping).

Lemma arithmetic_tail : forall t ts,
  arithmetic (t :: ts) = true -> arithmetic ts = true.
Proof. intros t ts H. simpl in H. apply andb_true_iff in H. apply H. Qed.

Lemma parsers_commute_0 : parsers_commute mapping 0.
Proof.
  unfold parsers_commute, commutes. cbv zeta.
  repeat split; intros; discriminate.
Qed.

(** The tokens the substitution leaves as they are, and what it makes of
    a name. *)
Ltac tau_cases :=
  cbn [map subst_token];
  repeat match goal with
         | |- context [dict_get ?s mapping] =>
             destruct (dict_get s mapping) as [[| | | | |]|]
         end.

Ltac carry IH E :=
  let X := fresh "X" in
  let Y := fresh "Y" in
  destruct (IH _ _ _ ltac:(eassumption) E) as [X Y].

Section Step.

Variable n : nat.
Hypothesis IH : parsers_commute mapping n.

Lemma parse_sum_step :
  commutes mapping sub (parse_sum (S n)) (parse_sum (S n)).
Proof.
  destruct IH as [_ [Hterm [_ [_ [_ [_ [Hrest _]]]]]]].
  intros ts a ts' Ha H. cbn [parse_sum] in *.
  destruct (parse_term n ts) as [[l ts1]|] eqn:E; [|discriminate].
  carry Hterm E. rewrite X. exact (Hrest l _ _ _ Y H).
Qed.

Lemma parse_sum_rest_step : forall l,
  commutes mapping sub (parse_sum_rest (S n) l) (parse_sum_rest (S n) (sub l)).
Proof.
  destruct IH as [_ [Hterm [_ [_ [_ [_ [Hrest _]]]]]]].
  intros l ts a ts' Ha H. cbn [parse_sum_rest] in *.
  destruct ts as [|t ts0].
  - injection H as H1 H2. subst. split; [reflexivity | exact Ha].
  - pose proof (arithmetic_tail _ _ Ha) as Ha0.
    destruct t;
      try (injection H as H1 H2; subst; split; [tau_cases; reflexivity | exact Ha]).
    + cbn [map subst_token].
      destruct (parse_term n ts0) as [[r ts1]|] eqn:E; [|discriminate].
      carry Hterm E. rewrite X. exact (Hrest _ _ _ _ Y H).
    + cbn [map subst_token].
      destruct (parse_term n ts0) as [[r ts1]|] eqn:E; [|discriminate].
      carry Hterm E. rewrite X. exact (Hrest _ _ _ _ Y H).
Qed.

Lemma parse_term_step :
  commutes mapping sub (parse_term (S n)) (parse_term (S n)).
Proof.
  destruct IH as [_ [_ [Hfactor [_ [_ [_ [_ [Hrest _]]]]]]]].
  intros ts a ts' Ha H. cbn [parse_term] in *.
  destruct (parse_factor n ts) as [[l ts1]|] eqn:E; [|discriminate].
  carry Hfactor E. rewrite X. exact (Hrest l _ _ _ Y H).
Qed.

Lemma parse_term_rest_step : forall l,
  commutes mapping sub (parse_term_rest (S n) l) (parse_term_rest (S n) (sub l)).
Proof.
  destruct IH as [_ [_ [Hfactor [_ [_ [_ [_ [Hrest _]]]]]]]].
  intros l ts a ts' Ha H. cbn [parse_term_rest] in *.
  destruct ts as [|t ts0].
  - injection H as H1 H2. subst. split; [reflexivity | exact Ha].
  - pose proof (arithmetic_tail _ _ Ha) as Ha0.
    destruct t;
      try (injection H as H1 H2; subst; split; [tau_cases; reflexivity | exact Ha]);
      cbn [map subst_token];
      (destruct (parse_factor n ts0) as [[r ts1]|] eqn:E; [|discriminate]);
      carry Hfactor E; rewrite X; exact (Hrest _ _ _ _ Y H).
Qed.

Lemma parse_factor_step :
  commutes mapping sub (parse_factor (S n)) (parse_factor (S n)).
Proof.
  destruct IH as [_ [_ [Hfactor [Hpower _]]]].
  intros ts a ts' Ha H. cbn [parse_factor] in *.
  destruct ts as [|t ts0]; [exact (Hpower _ _ _ Ha H)|].
  pose proof (arithmetic_tail _ _ Ha) as Ha0.
  destruct t;
    try (destruct (Hpower _ _ _ Ha H) as [X Y]; split; [|exact Y];
         revert X; tau_cases; intros X; exact X).
  - cbn [map subst_token].
    destruct (parse_factor n ts0) as [[e ts1]|] eqn:E; [|discriminate].
    carry Hfactor E. rewrite X. injection H as H1 H2. subst.
    split; [reflexivity | exact Y].
  - cbn [map subst_token].
    destruct (parse_factor n ts0) as [[e ts1]|] eqn:E; [|discriminate].
    carry Hfactor E. rewrite X. injection H as H1 H2. subst.
    split; [reflexivity | exact Y].
Qed.

Lemma parse_power_step :
  commutes mapping sub (parse_power (S n)) (parse_power (S n)).
Proof.
  destruct IH as [_ [_ [Hfactor [_ [Hprimary _]]]]].
  intros ts a ts' Ha H. cbn [parse_power] in *.
  destruct (parse_primary n ts) as [[b ts1]|] eqn:E; [|discriminate].
  carry Hprimary E. rewrite X.
  destruct ts1 as [|t ts2].
  - injection H as H1 H2. subst. split; [reflexivity | exact Y].
  - pose proof (arithmetic_tail _ _ Y) as Y0.
    destruct t;
      try (injection H as H1 H2; subst; split; [tau_cases; reflexivity | exact Y]).
    cbn [map subst_token].
    destruct (parse_factor n ts2) as [[e ts3]|] eqn:E2; [|discriminate].
    destruct (Hfactor _ _ _ Y0 E2) as [X2 Y2]. rewrite X2.
    injection H as H1 H2. subst. split; [reflexivity | exact Y2].
Qed.

Lemma parse_primary_step :
  commutes mapping sub (parse_primary (S n)) (parse_primary (S n)).
Proof.
  destruct IH as [Hsum [_ [_ [_ [_ [_ [_ [_ Htrailers]]]]]]]].
  intros ts a ts' Ha H. cbn [parse_primary] in *.
  destruct ts as [|t ts0]; [discriminate|].
  pose proof (arithmetic_tail _ _ Ha) as Ha0.
  destruct t; try discriminate.
  - destruct (Htrailers _ _ _ _ Ha0 H) as [X Y]. split; [|exact Y].
    revert X. cbn [map subst_token subst_expr].
    destruct (dict_get s mapping) as [[| | | | |]|]; intros X; exact X.
  - exact (Htrailers _ _ _ _ Ha0 H).
  - exact (Htrailers _ _ _ _ Ha0 H).
  - cbn [map subst_token].
    destruct (parse_sum n ts0) as [[e ts1]|] eqn:E; [|discriminate].
    carry Hsum E. rewrite X.
    destruct ts1 as [|t ts2]; [discriminate|].
    pose proof (arithmetic_tail _ _ Y) as Y0.
    destruct t; try discriminate.
    cbn [map subst_token]. exact (Htrailers _ _ _ _ Y0 H).
Qed.

Lemma parse_trailers_step : forall f,
  commutes mapping sub (parse_trailers (S n) f) (parse_trailers (S n) (sub f)).
Proof.
  destruct IH as [_ [_ [_ [_ [_ [Hargs [_ [_ Htrailers]]]]]]]].
  intros f ts a ts' Ha H. cbn [parse_trailers] in *.
  destruct ts as [|t ts0].
  - injection H as H1 H2. subst. split; [reflexivity | exact Ha].
  - pose proof (arithmetic_tail _ _ Ha) as Ha0.
    destruct t;
      try (injection H as H1 H2; subst; split; [tau_cases; reflexivity | exact Ha]);
      try discriminate.
    cbn [map subst_token].
    destruct (parse_args n ts0) as [[args ts1]|] eqn:E; [|discriminate].
    carry Hargs E. rewrite X.
    exact (Htrailers (ECall f args) _ _ _ Y H).
Qed.

Lemma parse_args_step :
  commutes mapping (map sub) (parse_args (S n)) (parse_args (S n)).
Proof.
  destruct IH as [Hsum [_ [_ [_ [_ [Hargs _]]]]]].
  intros ts a ts' Ha H. cbn [parse_args] in *.
  assert (general : forall us,
    arithmetic us = true ->
    match parse_sum n us with
    | Some (e, TComma :: us') =>
        match parse_args n us' with
        | Some (es, us'') => Some (e :: es, us'')
        | None => None
        end
    | Some (e, TRParen :: us') => Some ([e], us')
    | _ => None
    end = Some (a, ts') ->
    match parse_sum n (map tau us) with
    | Some (e, TComma :: us') =>
        match parse_args n us' with
        | Some (es, us'') => Some (e :: es, us'')
        | None => None
        end
    | Some (e, TRParen :: us') => Some ([e], us')
    | _ => None
    end = Some (map sub a, map tau ts') /\ arithmetic ts' = true).
  { intros us Hus Hm.
    destruct (parse_sum n us) as [[e us1]|] eqn:E; [|discriminate].
    carry Hsum E. rewrite X.
    destruct us1 as [|t us2]; [discriminate|].
    pose proof (arithmetic_tail _ _ Y) as Y0.
    destruct t; try discriminate; cbn [map subst_token].
    - injection Hm as H1 H2. subst. split; [reflexivity | exact Y0].
    - destruct (parse_args n us2) as [[es us3]|] eqn:E2; [|discriminate].
      destruct (Hargs _ _ _ Y0 E2) as [X2 Y2]. rewrite X2.
      injection Hm as H1 H2. subst. split; [reflexivity | exact Y2]. }
  destruct ts as [|t ts0]; [exact (general [] Ha H)|].
  pose proof (arithmetic_tail _ _ Ha) as Ha0.
  destruct t;
    try (destruct (general _ Ha H) as [X Y]; split; [|exact Y];
         revert X; tau_cases; intros X; exact X).
  injection H as H1 H2. subst. split; [reflexivity | exact Ha0].
Qed.

End Step.

Lemma parsers_commute_all : forall n, parsers_commute mapping n.
Proof.
  induction n as [|n IH]; [exact parsers_commute_0|].
  exact (conj (parse_sum_step n IH)
        (conj (parse_term_step n IH)
        (conj (parse_factor_step n IH)
        (conj (parse_power_step n IH)
        (conj (parse_primary_step n IH)
        (conj (parse_args_step n IH)
        (conj (parse_sum_rest_step n IH)
        (conj (parse_term_rest_step n IH)
              (parse_trailers_step n IH))))))))).
Qed.

(** Parsing commutes with the substitution on the tokens of arithmetic. *)
Lemma parse_substituted : forall ts e,
  arithmetic ts = true ->
  parse ts = Some e ->
  parse (map tau ts) = Some (sub e).
Proof.
  intros ts e Ha H. unfold parse in *. rewrite length_map.
  destruct (parse_sum (10 * List.length ts + 10) ts) as [[e' ts']|] eqn:E;
    [|discriminate].
  destruct ts' as [|t ts']; [|discriminate].
  injection H as H. subst e'.
  destruct (parsers_commute_all (10 * List.length ts + 10)) as [Hsum _].
  destruct (Hsum _ _ _ Ha E) as [X _]. rewrite X. reflexivity.
Qed.

End ParseSubstituted.

(** ** Evaluating the substituted expression *)

Section EvalSubstituted.

Variable float_repr : float -> string.
Variable globals : dict value.
Variable mapping : dict value.

Hypothesis values_are_plain :
  Forall (fun kv => plain_value float_repr (snd kv)) mapping.

(** An expression whose variables have been replaced by their literals,
    evaluated with no local name, is the expression evaluated with the
    variables for local names. *)
Lemma eval_substituted : forall e,
  eval_expr globals [] (subst_expr mapping e) = eval_expr globals mapping e.
Proof.
  induction e as [n|x|s|s|op e IH|op l r IHl IHr|f args IHf IHargs|e name IH]
    using expr_induction.
  - reflexivity.
  - reflexivity.
  - reflexivity.
  - cbn [subst_expr eval_expr]. unfold lookup.
    destruct (dict_get s mapping) as [v|] eqn:E.
    + pose proof (key_is_plain float_repr mapping values_are_plain _ _ E) as Hv.
      destruct v; simpl in Hv; try contradiction; reflexivity.
    + reflexivity.
  - cbn [subst_expr eval_expr]. rewrite IH. reflexivity.
  - cbn [subst_expr eval_expr]. rewrite IHl, IHr. reflexivity.
  - cbn [subst_expr eval_expr]. rewrite IHf.
    destruct (eval_expr globals mapping f) as [[fv|x]|]; try reflexivity.
    match goal with
    | |- match ?a with _ => _ end = match ?b with _ => _ end =>
        assert (Hargs : a = b); [|rewrite Hargs; reflexivity]
    end.
    induction IHargs as [|e1 es H1 Hes IHes]; [reflexivity|].
    cbn [map]. rewrite H1.
    destruct (eval_expr globals mapping e1) as [[v|x]|]; try reflexivity.
    rewrite IHes. reflexivity.
  - cbn [subst_expr eval_expr]. rewrite IH. reflexivity.
Qed.

End EvalSubstituted.

(** ** The evaluator against the binding of the variables *)

Lemma variable_name_is_name : forall k,
  is_variable_name k = true -> is_name k = true.
Proof.
  intros k H. unfold is_variable_name in H. apply andb_true_iff in H.
  destruct H as [H _]. unfold is_identifier in H. unfold is_name.
  destruct (chars k) as [|c t]; [discriminate|].
  apply andb_true_iff in H. apply H.
Qed.

Lemma arith_eval_substituted :
  forall float_repr globals mapping expression toks r,
    Forall (fun k => is_variable_name k = true) (dict_keys mapping) ->
    Forall (fun kv => plain_value float_repr (snd kv)) mapping ->
    Forall (fun kv => value_within_limit (snd kv) = true) mapping ->
    tokenize expression = Some toks ->
    arithmetic toks = true ->
    arith_eval expression globals mapping = Some r ->
    arith_eval (substituted (py_str float_repr) mapping expression) globals []
    = Some r.
Proof.
  intros float_repr globals mapping expression toks r Hkeys Hvals Hlim Htok Ha H.
  unfold arith_eval in *. rewrite Htok in H.
  unfold tokenize in *. unfold substituted.
  rewrite chars_str_of, chunks_substituted by apply chunks_well_chunked.
  rewrite (lex_substituted float_repr mapping Hkeys Hvals Hlim _ toks
             (chunks_well_chunked _) Htok Ha).
  rewrite length_map.
  destruct (Nat.leb (List.length toks) max_tokens); [|discriminate].
  destruct (parse toks) as [e|] eqn:E; [|discriminate].
  rewrite (parse_substituted mapping toks e Ha E).
  rewrite (eval_substituted float_repr globals mapping Hvals). exact H.
Qed.

(** On the arithmetic the fragment covers, substituting the text of the
    values and binding the variables come to the same.  Let the mapping be
    not empty, its keys names that are not keywords, and its values ints
    that are not negative, of at most [max_str_digits] digits, or floats
    whose [repr] is a plain [digits.digits] literal.  Let the expression be
    one the fragment reads as tokens of arithmetic.  If the fragment
    evaluates the expression, with the variables bound to their values and
    the allowed names behind them, to a value, the call returns that value
    and changes nothing; if to an exception, the call prints the diagnostic
    and exits. *)
Theorem restricted_eval_agrees_with_binding :
  forall py_eval float_repr exn_str math_dict expression variables w toks r,
    extends_fragment py_eval ->
    heap w variables <> [] ->
    Forall (fun k => is_variable_name k = true) (dict_keys (heap w variables)) ->
    Forall (fun kv => plain_value float_repr (snd kv)) (heap w variables) ->
    Forall (fun kv => value_within_limit (snd kv) = true) (heap w variables) ->
    tokenize expression = Some toks ->
    arithmetic toks = true ->
    arith_eval expression (safe_env math_dict) (heap w variables) = Some r ->
    restricted_eval py_eval float_repr exn_str math_dict expression variables w
    = match r with
      | Value v => (Normal v, w)
      | Raise e =>
          (SysExit,
           World (heap w) (next_ref w)
             (stdout w
              ++ [diagnostic exn_str e
                    (substituted (py_str float_repr) (heap w variables) expression)])
             false)
      end.
Proof.
  intros py_eval float_repr exn_str math_dict expression variables w toks r
    Hfrag Hne Hkeys Hvals Hlim Htok Ha H.
  assert (Hnames : Forall (fun k => is_name k = true) (dict_keys (heap w variables))).
  { revert Hkeys. apply Forall_impl. exact variable_name_is_name. }
  unfold restricted_eval.
  rewrite (bind_run _ _ _ _ _
             (substitute_names float_repr expression variables w Hne Hnames)).
  unfold try_except, eval_call.
  rewrite (Hfrag _ _ _ _ (safe_env_builtins math_dict)
             (arith_eval_substituted float_repr _ _ _ toks r Hkeys Hvals Hlim
                Htok Ha H)).
  destruct r; reflexivity.
Qed.

Lemma restricted_eval_agrees_with_binding_witness :
  restricted_eval fragment_eval sample_float_repr sample_exn_str sample_math
    "x_scale*surface_width/2 + max(n, 7) - sqrt(16)" 0
    (World (fun _ => [("surface_width", VInt 800); ("x_scale", VFloat 8);
                      ("n", VInt 3)]) 1 [] true)
  = (Normal (VFloat 3203),
     World (fun _ => [("surface_width", VInt 800); ("x_scale", VFloat 8);
                      ("n", VInt 3)]) 1 [] true).
Proof.
  eapply (restricted_eval_agrees_with_binding fragment_eval sample_float_repr
            sample_exn_str sample_math
            "x_scale*surface_width/2 + max(n, 7) - sqrt(16)" 0
            (World (fun _ => [("surface_width", VInt 800); ("x_scale", VFloat 8);
                              ("n", VInt 3)]) 1 [] true)
            _ (Value (VFloat 3203))).
  - exact fragment_eval_extends.
  - discriminate.
  - repeat constructor.
  - repeat constructor; simpl; try lia.
    exists (chars "8"), (chars "0").
    repeat split; try discriminate; reflexivity.
  - repeat constructor.
  - vm_compute. reflexivity.
  - reflexivity.
  - vm_compute. reflexivity.
Defined.

(** C1: the call [restricted_eval("x**2", {"x": -2})].  The expression
    references one variable, present in the mapping, and with [x] bound to
    [-2] its value is [4].  The code inserts the text [-2] without
    parentheses and evaluates [-2**2]: the call returns [-4]. *)
Lemma negative_value_is_misread :
  arith_eval "x**2" (safe_env sample_math) [("x", VInt (-2))]
  = Some (Value (VInt 4)) /\
  fst (restricted_eval fragment_eval sample_float_repr sample_exn_str sample_math
         "x**2" 0 (World (fun _ => [("x", VInt (-2))]) 1 [] true))
  = Normal (VInt (-4)).
Proof. split; vm_compute; reflexivity. Qed.

(** ** Further facts *)

(** The order of the keys shows when they are not names: both [a] and [a b]
    match at the start of [a b+a], and the first of the two in the mapping
    wins. *)
Example alternation_follows_the_keys :
  fst (substitute sample_float_repr "a b+a" 0
         (World (fun _ => [("a", VInt 2); ("a b", VInt 7)]) 1 [] true))
  = Normal "2 b+2" /\
  fst (substitute sample_float_repr "a b+a" 0
         (World (fun _ => [("a b", VInt 7); ("a", VInt 2)]) 1 [] true))
  = Normal "7+2".
Proof. split; vm_compute; reflexivity. Qed.

(** Two runs of the specification's list of examples. *)
Example evaluate_sum :
  fst (restricted_eval fragment_eval sample_float_repr sample_exn_str sample_math
         "x + y" 0 (World (fun _ => [("x", VInt 2); ("y", VInt 3)]) 1 [] true))
  = Normal (VInt 5).
Proof. vm_compute. reflexivity. Qed.

Example evaluate_sqrt :
  fst (restricted_eval fragment_eval sample_float_repr sample_exn_str sample_math
         "sqrt(x)" 0 (World (fun _ => [("x", VInt 16)]) 1 [] true))
  = Normal (VFloat 4).
Proof. vm_compute. reflexivity. Qed.

(** ** The substitution on a mapping that is not empty *)

Lemma first_alternative_in : forall p prev s must_advance k,
  first_alternative p prev s must_advance = Some k -> In k p.
Proof.
  induction p as [|k0 p IH]; intros prev s ma k H; simpl in H; [discriminate|].
  destruct (strip_prefix k0 s) as [rest|].
  - destruct (at_boundary (last_char prev k0) rest
              && (negb ma || negb (Nat.eqb (List.length k0) 0))).
    + injection H as H. left. exact H.
    + right. apply (IH _ _ _ _ H).
  - right. apply (IH _ _ _ _ H).
Qed.

Lemma match_here_in : forall p prev s must_advance k,
  match_here p prev s must_advance = Some k -> In k p.
Proof.
  intros p prev s ma k H. unfold match_here in H.
  destruct (at_boundary prev s); [|discriminate].
  apply (first_alternative_in _ _ _ _ _ H).
Qed.

(** A scan whose callback answers every alternative of the pattern runs to
    the end of the text. *)
Lemma sub_scan_completes :
  forall (p : pattern) (repl : text -> M text) (f : text -> text) w,
    (forall k, In k p -> repl k w = (Normal (f k), w)) ->
    forall s prev skip,
      exists out, sub_scan p repl prev skip s w = (Normal out, w).
Proof.
  intros p repl f w H.
  assert (copy : forall c s' n (g : text -> text),
    (forall prev skip, exists out, sub_scan p repl prev skip s' w = (Normal out, w)) ->
    exists out,
      (out0 <- sub_scan p repl (Some c) n s' ;; ret (g out0)) w = (Normal out, w)).
  { intros c s' n g IH. destruct (IH (Some c) n) as [out E].
    rewrite (bind_run _ _ _ _ _ E). unfold ret. eauto. }
  assert (replace : forall c s' k, In k p ->
    (forall prev skip, exists out, sub_scan p repl prev skip s' w = (Normal out, w)) ->
    exists out,
      (r0 <- repl k ;;
       out <- sub_scan p repl (Some c) (List.length k - 1) s' ;;
       ret (r0 ++ out)) w = (Normal out, w)).
  { intros c s' k Hk IH. rewrite (bind_run _ _ _ _ _ (H k Hk)).
    apply (copy c s' (List.length k - 1) (fun out => f k ++ out) IH). }
  induction s as [|c s' IH]; intros prev skip; simpl.
  - destruct (match_here p prev [] false) as [k|] eqn:E.
    + rewrite (H k (match_here_in _ _ _ _ _ E)). eauto.
    + unfold ret. eauto.
  - destruct skip as [|n]; [|apply IH].
    destruct (match_here p prev (c :: s') false) as [[|a k]|] eqn:E.
    + rewrite (bind_run _ _ _ _ _ (H [] (match_here_in _ _ _ _ _ E))).
      destruct (match_here p prev (c :: s') true) as [k|] eqn:E2.
      * destruct (replace c s' k (match_here_in _ _ _ _ _ E2) IH) as [out Eo].
        rewrite (bind_run _ _ _ _ _ Eo). unfold ret. eauto.
      * destruct (copy c s' 0 (fun out => c :: out) IH) as [out Eo].
        rewrite (bind_run _ _ _ _ _ Eo). unfold ret. eauto.
    + apply (replace c s' (a :: k) (match_here_in _ _ _ _ _ E) IH).
    + apply (copy c s' 0 (fun out => c :: out) IH).
Qed.

Section Outcomes.

Variable py_eval : string -> dict value -> dict value -> eval_result.
Variable float_repr : float -> string.
Variable exn_str : exn -> string.
Variable math_dict : dict value.

(** On a mapping that is not empty, whose ints have at most
    [max_str_digits] digits, the substitution runs to the end of the
    expression and changes nothing, whatever characters the keys are made
    of: every match of the pattern is the text of a key, so the lookup of
    the callback finds it.  (The limit on the digits is where [str] of an
    int is the [int_str] of this file.) *)
Theorem substitution_completes : forall expression variables w,
  heap w variables <> [] ->
  Forall (fun kv => value_within_limit (snd kv) = true) (heap w variables) ->
  exists out, substitute float_repr expression variables w = (Normal out, w).
Proof.
  intros expression variables w Hne _.
  destruct (sub_scan_completes (re_compile (dict_keys (heap w variables)))
              (replace_var float_repr variables)
              (fun k => match dict_get (str_of k) (heap w variables) with
                        | Some v => chars (py_str float_repr v)
                        | None => []
                        end) w) with (s := chars expression) (prev := @None ascii)
                                     (skip := 0) as [out E].
  { intros k Hk. rewrite replace_var_run. unfold lookup_text.
    assert (Hin : In k (map chars (dict_keys (heap w variables)))).
    { destruct (heap w variables); [contradiction | exact Hk]. }
    apply in_compiled_keys in Hin. destruct Hin as [v Hv]. rewrite Hv.
    reflexivity. }
  exists (str_of out). unfold substitute, keys_of, re_sub.
  change (bind _ _ w) with
    (bind (sub_scan (re_compile (dict_keys (heap w variables)))
             (replace_var float_repr variables) None 0 (chars expression))
          (fun out => ret (str_of out)) w).
  rewrite (bind_run _ _ _ _ _ E). reflexivity.
Qed.

(** What follows a substitution that completed. *)
Lemma restricted_eval_of_substituted : forall expression variables w s,
  substitute float_repr expression variables w = (Normal s, w) ->
  restricted_eval py_eval float_repr exn_str math_dict expression variables w
  = match py_eval s (safe_env math_dict) [] with
    | Value v => (Normal v, w)
    | Raise e =>
        (SysExit,
         World (heap w) (next_ref w) (stdout w ++ [diagnostic exn_str e s]) false)
    end.
Proof.
  intros expression variables w s H. unfold restricted_eval.
  rewrite (bind_run _ _ _ _ _ H). unfold try_except, eval_call.
  destruct (py_eval s (safe_env math_dict) []); reflexivity.
Qed.

End Outcomes.

(** ** Names for keys: the order of the keys, and what remains of them *)

Lemma substituted_ext : forall str (m1 m2 : dict value) expression,
  (forall k, dict_get k m1 = dict_get k m2) ->
  substituted str m1 expression = substituted str m2 expression.
Proof.
  intros str m1 m2 expression H. unfold substituted. do 2 f_equal.
  apply map_ext. intros [wd|c]; simpl; [rewrite H|]; reflexivity.
Qed.

Lemma same_bindings_same_keys : forall (m1 m2 : dict value) k,
  (forall k, dict_get k m1 = dict_get k m2) ->
  In k (dict_keys m2) -> In k (dict_keys m1).
Proof.
  intros m1 m2 k H Hin. apply dict_get_in_keys.
  apply dict_get_in_keys in Hin. rewrite H. exact Hin.
Qed.

Lemma same_bindings_empty : forall (m1 m2 : dict value),
  (forall k, dict_get k m1 = dict_get k m2) -> m1 = [] -> m2 = [].
Proof.
  intros m1 m2 H E. subst m1. destruct m2 as [|[k v] m2]; [reflexivity|].
  specialize (H k). simpl in H. rewrite String.eqb_refl in H. discriminate.
Qed.

Lemma well_chunked_words : forall cs wd,
  well_chunked cs -> In (Word wd) cs -> wd <> [].
Proof.
  induction cs as [|[w|c] cs IH]; intros wd Hwell Hin; simpl in *.
  - contradiction.
  - destruct Hwell as [Hne [_ [_ Hwell]]]. destruct Hin as [E|Hin].
    + injection E as E. subst w. exact Hne.
    + apply (IH _ Hwell Hin).
  - destruct Hwell as [_ Hwell]. destruct Hin as [E|Hin]; [discriminate|].
    apply (IH _ Hwell Hin).
Qed.

Lemma substituted_without_keys : forall str (mapping : dict value) expression,
  (forall wd, In (Word wd) (chunks (chars expression)) ->
              dict_get (str_of wd) mapping = None) ->
  substituted str mapping expression = expression.
Proof.
  intros str mapping expression H. unfold substituted.
  rewrite (map_ext_in _ chunk_text).
  - fold (unchunk (chunks (chars expression))).
    rewrite unchunk_chunks. apply str_of_chars.
  - intros [wd|c] Hin; simpl; [rewrite (H wd Hin)|]; reflexivity.
Qed.

Section KeysAreNames.

Variable py_eval : string -> dict value -> dict value -> eval_result.
Variable float_repr : float -> string.
Variable exn_str : exn -> string.
Variable math_dict : dict value.

(** When the keys are names, the order in which the mapping holds them does
    not show: two mappings that bind the same keys to the same values give
    calls that end alike and print alike. *)
Theorem key_order_is_immaterial :
  forall expression variables1 variables2 w1 w2,
    Forall (fun k => is_name k = true) (dict_keys (heap w1 variables1)) ->
    (forall k, dict_get k (heap w1 variables1) = dict_get k (heap w2 variables2)) ->
    let call := restricted_eval py_eval float_repr exn_str math_dict expression in
    fst (call variables1 w1) = fst (call variables2 w2) /\
    exists printed,
      stdout (snd (call variables1 w1)) = stdout w1 ++ printed /\
      stdout (snd (call variables2 w2)) = stdout w2 ++ printed.
Proof.
  intros expression d1 d2 w1 w2 Hnames Hsame. cbv zeta.
  assert (Hnames2 : Forall (fun k => is_name k = true) (dict_keys (heap w2 d2))).
  { rewrite Forall_forall in *. intros k Hk. apply Hnames.
    apply (same_bindings_same_keys _ _ k Hsame Hk). }
  destruct (heap w1 d1) as [|kv rest] eqn:H1.
  - pose proof (same_bindings_empty _ _ Hsame eq_refl) as H2.
    assert (H : heap w1 d1 = heap w2 d2) by congruence.
    rewrite !restricted_eval_evaluate, H. unfold perform.
    destruct (evaluate py_eval float_repr exn_str math_dict expression (heap w2 d2))
      as [[c out] up].
    simpl. split; [reflexivity | exists out; split; reflexivity].
  - assert (Hne1 : heap w1 d1 <> []) by (rewrite H1; discriminate).
    assert (Hne2 : heap w2 d2 <> []).
    { intros E. symmetry in Hsame.
      pose proof (same_bindings_empty _ _ Hsame E). congruence. }
    rewrite <- H1 in Hnames, Hsame.
    rewrite (restricted_eval_of_substituted py_eval float_repr exn_str math_dict
               _ _ _ _ (substitute_names float_repr expression d1 w1 Hne1 Hnames)).
    rewrite (restricted_eval_of_substituted py_eval float_repr exn_str math_dict
               _ _ _ _ (substitute_names float_repr expression d2 w2 Hne2 Hnames2)).
    rewrite (substituted_ext _ _ _ expression Hsame).
    destruct (py_eval _ (safe_env math_dict) []) as [v|e]; simpl.
    + split; [reflexivity|]. exists []. rewrite !app_nil_r. auto.
    + split; [reflexivity|]. eexists. split; reflexivity.
Qed.

(** An expression none of whose words is a key is evaluated as it is
    written. *)
Theorem expression_without_variables : forall expression variables w,
  heap w variables <> [] ->
  Forall (fun k => is_name k = true) (dict_keys (heap w variables)) ->
  (forall wd, In (Word wd) (chunks (chars expression)) ->
              dict_get (str_of wd) (heap w variables) = None) ->
  restricted_eval py_eval float_repr exn_str math_dict expression variables w
  = match py_eval expression (safe_env math_dict) [] with
    | Value v => (Normal v, w)
    | Raise e =>
        (SysExit,
         World (heap w) (next_ref w)
               (stdout w ++ [diagnostic exn_str e expression]) false)
    end.
Proof.
  intros expression variables w Hne Hnames Hfree.
  pose proof (substitute_names float_repr expression variables w Hne Hnames) as Hs.
  rewrite (substituted_without_keys _ _ _ Hfree) in Hs.
  apply (restricted_eval_of_substituted _ _ _ _ _ _ _ _ Hs).
Qed.

(** With variable names for keys and plain numbers for values, no word of
    the substituted text is a key any more: every variable has given way to
    its literal, and the literals are not read again. *)
Theorem substitution_leaves_no_variable : forall expression variables w out,
  Forall (fun k => is_variable_name k = true) (dict_keys (heap w variables)) ->
  Forall (fun kv => plain_value float_repr (snd kv)) (heap w variables) ->
  fst (substitute float_repr expression variables w) = Normal out ->
  forall wd, In (Word wd) (chunks (chars out)) ->
             dict_get (str_of wd) (heap w variables) = None.
Proof.
  intros expression variables w out Hkeys Hvals Hout wd Hin.
  destruct (heap w variables) as [|kv rest] eqn:Hheap; [reflexivity|].
  rewrite <- Hheap in *.
  assert (Hne : heap w variables <> []) by (rewrite Hheap; discriminate).
  assert (Hnames : Forall (fun k => is_name k = true) (dict_keys (heap w variables))).
  { revert Hkeys. apply Forall_impl. exact variable_name_is_name. }
  rewrite (substitute_names float_repr expression variables w Hne Hnames) in Hout.
  simpl in Hout. injection Hout as Hout. subst out.
  assert (Hwd : wd <> [])
    by (apply (well_chunked_words _ _ (chunks_well_chunked _) Hin)).
  unfold substituted in Hin.
  rewrite chars_str_of, chunks_substituted in Hin by apply chunks_well_chunked.
  apply in_flat_map in Hin. destruct Hin as [[w0|c] [_ Hin]]; simpl in Hin.
  - destruct (dict_get (str_of w0) (heap w variables)) as [v|] eqn:E.
    + apply (digits_are_no_key (heap w variables) Hkeys wd Hwd).
      destruct (plain_value_chunks float_repr v
                  (key_is_plain float_repr _ Hvals _ _ E))
        as [[n [ds [_ [Hc [Hds _]]]]] | [x [wh [fr [_ [Hc [Hwh [Hfr _]]]]]]]];
        rewrite Hc in Hin; simpl in Hin.
      * destruct Hin as [Hin|[]]. injection Hin as Hin. subst wd. exact Hds.
      * destruct Hin as [Hin|[Hin|[Hin|[]]]]; try discriminate;
          injection Hin as Hin; subst wd; assumption.
    + destruct Hin as [Hin|[]]. injection Hin as Hin. subst wd. exact E.
  - destruct Hin as [Hin|[]]. discriminate.
Qed.

End KeysAreNames.

(** ** What the allowed names are bound to *)

Lemma dict_keys_set_NoDup : forall {V} k (v : V) d,
  NoDup (dict_keys d) -> NoDup (dict_keys (dict_set k v d)).
Proof.
  intros V k v d. induction d as [|[k0 v0] d IH]; intros H; simpl.
  - constructor; [intros [] | constructor].
  - destruct (String.eqb k k0) eqn:E; [exact H|].
    simpl in *. inversion H as [|? ? Hnotin Hrest]. subst.
    constructor; [|apply IH; exact Hrest].
    intros Hin. apply dict_keys_set in Hin. destruct Hin as [Hin|Hin].
    + subst k0. rewrite String.eqb_refl in E. discriminate.
    + apply Hnotin. exact Hin.
Qed.

Lemma dict_keys_update_NoDup : forall {V} (other d : dict V),
  NoDup (dict_keys d) -> NoDup (dict_keys (dict_update d other)).
Proof.
  intros V other. unfold dict_update.
  induction other as [|[k0 v0] other IH]; intros d H; simpl; [exact H|].
  apply IH. apply dict_keys_set_NoDup. exact H.
Qed.

(** An update with a dictionary: its bindings come first, the old ones
    show where it has none. *)
Lemma dict_get_update : forall {V} k (other d : dict V),
  NoDup (dict_keys other) ->
  dict_get k (dict_update d other)
  = match dict_get k other with
    | Some v => Some v
    | None => dict_get k d
    end.
Proof.
  intros V k other. unfold dict_update.
  induction other as [|[k0 v0] other IH]; intros d H; simpl; [reflexivity|].
  simpl in H. inversion H as [|? ? Hnotin Hrest]. subst.
  rewrite (IH _ Hrest), dict_get_set.
  destruct (String.eqb k k0) eqn:E; [|reflexivity].
  apply String.eqb_eq in E. subst k0.
  destruct (dict_get k other) as [v|] eqn:G; [|reflexivity].
  exfalso. apply Hnotin. apply dict_get_in_keys. eauto.
Qed.

Lemma dict_get_filter : forall {V} (keep : string -> bool) k (d : dict V),
  dict_get k (filter (fun kv => keep (fst kv)) d)
  = if keep k then dict_get k d else None.
Proof.
  intros V keep k d. induction d as [|[k0 v0] d IH]; simpl.
  - destruct (keep k); reflexivity.
  - destruct (String.eqb k k0) eqn:E.
    + apply String.eqb_eq in E. subst k0.
      destruct (keep k) eqn:K; simpl; [rewrite String.eqb_refl; reflexivity|].
      exact IH.
    + destruct (keep k0); simpl; [rewrite E|]; exact IH.
Qed.

Lemma dict_keys_filter_NoDup : forall {V} (keep : string * V -> bool) (d : dict V),
  NoDup (dict_keys d) -> NoDup (dict_keys (filter keep d)).
Proof.
  intros V keep d. induction d as [|[k0 v0] d IH]; intros H; simpl; [constructor|].
  simpl in H. inversion H as [|? ? Hnotin Hrest]. subst.
  destruct (keep (k0, v0)); [|apply IH; exact Hrest].
  simpl. constructor; [|apply IH; exact Hrest].
  intros Hin. apply Hnotin. unfold dict_keys in *.
  apply in_map_iff in Hin. destruct Hin as [[k v] [E Hin]].
  apply filter_In in Hin. apply in_map_iff. exists (k, v). tauto.
Qed.

(** What a name is bound to in the allowed names: the entry of
    [math.__dict__] when there is one that does not start with two
    underscores, the built-in function otherwise. *)
Lemma dict_get_allowed_names : forall math_dict name,
  NoDup (dict_keys math_dict) ->
  dict_get name (allowed_names math_dict)
  = match (if startswith name "__" then None else dict_get name math_dict) with
    | Some v => Some v
    | None =>
        dict_get name [("abs", VBuiltin "abs"); ("round", VBuiltin "round");
                       ("min", VBuiltin "min"); ("max", VBuiltin "max")]
    end.
Proof.
  intros math_dict name Hnodup. unfold allowed_names, dict_of.
  assert (Hf : NoDup (dict_keys
                        (filter (fun kv : string * value => negb (startswith (fst kv) "__"))
                                math_dict)))
    by (apply dict_keys_filter_NoDup; exact Hnodup).
  rewrite dict_get_update
    by (apply dict_keys_update_NoDup; constructor).
  rewrite (dict_get_update name _ [] Hf).
  pose proof (dict_get_filter (fun k => negb (startswith k "__")) name math_dict) as F.
  cbv beta in F. rewrite F.
  destruct (startswith name "__"); simpl negb; cbv iota.
  - reflexivity.
  - destruct (dict_get name math_dict); reflexivity.
Qed.

(** A name of [math.__dict__] that does not start with two underscores
    evaluates to the entry of [math.__dict__], also when it is spelled like
    one of the four built-in functions; each of the four that
    [math.__dict__] does not define is the built-in function. *)
Theorem allowed_names_resolve : forall math_dict,
  NoDup (dict_keys math_dict) ->
  (forall name v,
      dict_get name math_dict = Some v ->
      startswith name "__" = false ->
      lookup (safe_env math_dict) [] name = Value v) /\
  (forall name,
      In name ["abs"; "round"; "min"; "max"] ->
      dict_get name math_dict = None ->
      lookup (safe_env math_dict) [] name = Value (VBuiltin name)).
Proof.
  intros math_dict Hnodup.
  assert (Hallowed : NoDup (dict_keys (allowed_names math_dict))).
  { unfold allowed_names. apply dict_keys_update_NoDup.
    unfold dict_of. apply dict_keys_update_NoDup. constructor. }
  assert (Henv : forall name,
    dict_get name (safe_env math_dict)
    = match dict_get name (allowed_names math_dict) with
      | Some v => Some v
      | None => dict_get name [("__builtins__", VNone)]
      end).
  { intros name. unfold safe_env. rewrite (dict_get_update _ _ _ Hallowed).
    reflexivity. }
  split.
  - intros name v Hget Hpublic. unfold lookup. simpl dict_get at 1.
    rewrite Henv, (dict_get_allowed_names _ _ Hnodup), Hpublic, Hget.
    reflexivity.
  - intros name Hin Hget. unfold lookup. simpl dict_get at 1.
    rewrite Henv, (dict_get_allowed_names _ _ Hnodup), Hget.
    assert (E : (if startswith name "__" then None else @None value) = None)
      by (destruct (startswith name "__"); reflexivity).
    rewrite E.
    simpl in Hin.
    destruct Hin as [H|[H|[H|[H|[]]]]]; subst name; reflexivity.
Qed.

Lemma allowed_names_resolve_witness :
  lookup (safe_env sample_math) [] "pi" = Value (VFloat 0x1.921fb54442d18p+1) /\
  lookup (safe_env sample_math) [] "max" = Value (VBuiltin "max").
Proof.
  assert (H : NoDup (dict_keys sample_math)).
  { repeat constructor; simpl; intuition discriminate. }
  split.
  - apply (proj1 (allowed_names_resolve sample_math H)); reflexivity.
  - apply (proj2 (allowed_names_resolve sample_math H)); simpl; auto.
Defined.

(** ** The theorems above at concrete inputs *)

Lemma key_order_is_immaterial_witness :
  let call := restricted_eval fragment_eval sample_float_repr sample_exn_str
                sample_math "x2 - x" in
  let w1 := World (fun _ => [("x", VInt 2); ("x2", VInt 5)]) 1 [] true in
  let w2 := World (fun _ => [("x2", VInt 5); ("x", VInt 2)]) 1 [] true in
  fst (call 0 w1) = fst (call 0 w2) /\
  exists printed,
    stdout (snd (call 0 w1)) = stdout w1 ++ printed /\
    stdout (snd (call 0 w2)) = stdout w2 ++ printed.
Proof.
  apply (key_order_is_immaterial fragment_eval sample_float_repr sample_exn_str
           sample_math "x2 - x" 0 0
           (World (fun _ => [("x", VInt 2); ("x2", VInt 5)]) 1 [] true)
           (World (fun _ => [("x2", VInt 5); ("x", VInt 2)]) 1 [] true)).
  - repeat constructor.
  - intros k. simpl.
    destruct (String.eqb k "x") eqn:E1, (String.eqb k "x2") eqn:E2;
      try reflexivity.
    apply String.eqb_eq in E1. apply String.eqb_eq in E2.
    rewrite E1 in E2. discriminate.
Defined.

Lemma expression_without_variables_witness :
  restricted_eval fragment_eval sample_float_repr sample_exn_str sample_math
    "1 + xx" 0 (World (fun _ => [("x", VInt 7)]) 1 [] true)
  = match fragment_eval "1 + xx" (safe_env sample_math) [] with
    | Value v => (Normal v, World (fun _ => [("x", VInt 7)]) 1 [] true)
    | Raise e =>
        (SysExit,
         World (fun _ => [("x", VInt 7)]) 1
               ([] ++ [diagnostic sample_exn_str e "1 + xx"]) false)
    end.
Proof.
  apply (expression_without_variables fragment_eval sample_float_repr
           sample_exn_str sample_math "1 + xx" 0
           (World (fun _ => [("x", VInt 7)]) 1 [] true)).
  - discriminate.
  - repeat constructor.
  - intros wd H. vm_compute in H.
    repeat (destruct H as [H|H];
            [try discriminate; injection H as H; subst wd; reflexivity|]).
    destruct H.
Defined.

Lemma substitution_leaves_no_variable_witness :
  dict_get (str_of (chars "8")) [("x", VInt 2); ("y", VFloat 8)] = None.
Proof.
  apply (substitution_leaves_no_variable sample_float_repr "x + y" 0
           (World (fun _ => [("x", VInt 2); ("y", VFloat 8)]) 1 [] true)
           "2 + 8.0").
  - repeat constructor.
  - repeat constructor; simpl; try lia.
    exists (chars "8"), (chars "0").
    repeat split; try discriminate; reflexivity.
  - vm_compute. reflexivity.
  - vm_compute. do 4 right. left. reflexivity.
Defined.

(** ** A variable alone *)

(** The text of an int within the limit reads back as the int: the digits as
    a literal, with the sign, if any, as a unary minus in front of it. *)
Lemma arith_eval_int_str : forall globals n,
  value_within_limit (VInt n) = true ->
  arith_eval (int_str n) globals [] = Some (Value (VInt n)).
Proof.
  intros globals n Hlim.
  assert (literal : forall m,
    within_digit_limit (decimal m) = true -> int_literal (decimal m) = true).
  { intros m Hm. destruct (decimal_digits m) as [Hne [Hall [Hval Hlead]]].
    unfold int_literal, is_int_literal. rewrite Hall, Hm. simpl.
    destruct (decimal m) as [|c t] eqn:E; [contradiction|].
    destruct (Ascii.eqb c "0"%char) eqn:Ec; [|reflexivity].
    simpl. rewrite Hval, (Hlead c t eq_refl Ec). reflexivity. }
  assert (digits : forall m,
    within_digit_limit (decimal m) = true ->
    arith_eval (str_of (decimal m)) globals [] = Some (Value (VInt (Z.of_N m)))).
  { intros m Hm. destruct (decimal_digits m) as [Hne [Hall [Hval Hlead]]].
    unfold arith_eval, tokenize. rewrite chars_str_of.
    rewrite (chunks_word _ Hne (digits_are_words _ Hall)).
    rewrite lex_int_literal;
      [rewrite Hval; reflexivity | exact Hall | exact (literal m Hm)
       | reflexivity | exact I]. }
  destruct n as [|p|p].
  - apply (digits 0%N). exact Hlim.
  - apply (digits (Npos p)). exact Hlim.
  - destruct (decimal_digits (Npos p)) as [Hne [Hall [Hval Hlead]]].
    unfold arith_eval, tokenize, int_str.
    change (chars (String "-" (str_of (decimal (N.pos p)))))
      with ("-"%char :: chars (str_of (decimal (N.pos p)))).
    rewrite chars_str_of.
    change (chunks ("-"%char :: decimal (N.pos p)))
      with (Sep "-"%char :: chunks (decimal (N.pos p))).
    rewrite (chunks_word _ Hne (digits_are_words _ Hall)).
    rewrite lex_sep. cbn [Ascii.eqb Bool.eqb orb andb].
    change (is_quote "-"%char) with false. cbv iota.
    rewrite lex_int_literal;
      [rewrite Hval; reflexivity | exact Hall | exact (literal (Npos p) Hlim)
       | reflexivity | exact I].
Qed.

(** An expression that is one variable bound to an int of at most
    [max_str_digits] digits evaluates to that int, of either sign: the value
    survives the passage through its text. *)
Theorem int_variable_evaluates_to_itself :
  forall py_eval float_repr exn_str math_dict key n variables w,
    extends_fragment py_eval ->
    Forall (fun k => is_name k = true) (dict_keys (heap w variables)) ->
    dict_get key (heap w variables) = Some (VInt n) ->
    value_within_limit (VInt n) = true ->
    restricted_eval py_eval float_repr exn_str math_dict key variables w
    = (Normal (VInt n), w).
Proof.
  intros py_eval float_repr exn_str math_dict key n variables w
    Hfrag Hnames Hget Hlim.
  assert (Hne : heap w variables <> []).
  { intros E. rewrite E in Hget. discriminate. }
  assert (Hkey : is_name key = true).
  { rewrite Forall_forall in Hnames. apply Hnames.
    apply dict_get_in_keys. eauto. }
  destruct (is_name_words key Hkey) as [Hk Hwords].
  assert (Hs : substituted (py_str float_repr) (heap w variables) key = int_str n).
  { unfold substituted. rewrite (chunks_word _ Hk Hwords).
    cbn [map replace_chunk List.concat]. rewrite str_of_chars, Hget.
    rewrite app_nil_r. apply str_of_chars. }
  pose proof (substitute_names float_repr key variables w Hne Hnames) as Hsub.
  rewrite Hs in Hsub.
  rewrite (restricted_eval_of_substituted py_eval float_repr exn_str math_dict
             _ _ _ _ Hsub).
  rewrite (Hfrag _ _ _ _ (safe_env_builtins math_dict)
             (arith_eval_int_str (safe_env math_dict) n Hlim)).
  reflexivity.
Qed.

Lemma int_variable_evaluates_to_itself_witness :
  restricted_eval fragment_eval sample_float_repr sample_exn_str sample_math
    "x" 0 (World (fun _ => [("x", VInt (-2))]) 1 [] true)
  = (Normal (VInt (-2)), World (fun _ => [("x", VInt (-2))]) 1 [] true).
Proof.
  apply (int_variable_evaluates_to_itself fragment_eval sample_float_repr
           sample_exn_str sample_math "x" (-2) 0
           (World (fun _ => [("x", VInt (-2))]) 1 [] true)).
  - exact fragment_eval_extends.
  - repeat constructor.
  - reflexivity.
  - reflexivity.
Defined.

Lemma substitution_completes_witness :
  exists out,
    substitute sample_float_repr "a b+a" 0
      (World (fun _ => [("a b", VInt 7); ("+", VFloat 8)]) 1 [] true)
    = (Normal out, World (fun _ => [("a b", VInt 7); ("+", VFloat 8)]) 1 [] true).
Proof.
  apply (substitution_completes sample_float_repr "a b+a" 0
           (World (fun _ => [("a b", VInt 7); ("+", VFloat 8)]) 1 [] true)).
  - discriminate.
  - repeat constructor.
Defined.

(** ** The names of the environment, evaluated *)

(** An expression that is one name evaluates to what the lookup of the name
    gives.  The keywords and [__debug__] are not names to the compiler and
    are left out. *)
Lemma arith_eval_name : forall name globals locals,
  is_variable_name name = true ->
  arith_eval name globals locals = Some (lookup globals locals name).
Proof.
  intros name globals locals H.
  destruct (is_name_words name (variable_name_is_name name H)) as [Hne Hwords].
  unfold is_variable_name in H.
  assert (Hd : forallb is_digit (chars name) = false).
  { apply andb_true_iff in H. destruct H as [Hid _].
    unfold is_identifier in Hid. destruct (chars name) as [|c t]; [discriminate|].
    apply andb_true_iff in Hid. destruct Hid as [Hc _]. simpl.
    destruct (is_digit c); [discriminate | reflexivity]. }
  unfold arith_eval, tokenize.
  rewrite (chunks_word _ Hne Hwords), lex_word, Hd, str_of_chars, H.
  reflexivity.
Qed.

(** C7, amended: the global names of the evaluation environment are exactly
    [__builtins__], [abs], [round], [min], [max] and the names of
    [math.__dict__] that do not start with two underscores, and
    [__builtins__] is bound to [None].  A name of these evaluates to a
    value; any other name (one that is not a keyword or [__debug__], which
    are not names to the compiler) does not evaluate: the lookup fails. *)
Theorem safe_env_names : forall math_dict name,
  let listed :=
    name = "__builtins__"
    \/ In name ["abs"; "round"; "min"; "max"]
    \/ (In name (dict_keys math_dict) /\ startswith name "__" = false) in
  (In name (dict_keys (safe_env math_dict)) <-> listed) /\
  arith_eval "__builtins__" (safe_env math_dict) [] = Some (Value VNone) /\
  (is_variable_name name = true ->
   (listed -> exists v,
       arith_eval name (safe_env math_dict) [] = Some (Value v)) /\
   (~ listed ->
       arith_eval name (safe_env math_dict) []
       = Some (Raise (UnresolvedName name)))).
Proof.
  intros math_dict name listed.
  assert (keys : forall k,
    In k (dict_keys (allowed_names math_dict))
    <-> In k ["abs"; "round"; "min"; "max"]
        \/ (In k (dict_keys math_dict) /\ startswith k "__" = false)).
  { intros k. unfold allowed_names, dict_of.
    pose proof (dict_keys_filter (fun k => negb (startswith k "__")) k math_dict) as F.
    cbv beta in F.
    rewrite !dict_keys_update, F, negb_true_iff. simpl. tauto. }
  assert (names : In name (dict_keys (safe_env math_dict)) <-> listed).
  { unfold safe_env, dict_of, listed. rewrite !dict_keys_update, keys. simpl.
    intuition auto. }
  split; [exact names|]. split.
  - rewrite arith_eval_name by reflexivity.
    unfold lookup, safe_env. simpl dict_get at 1.
    rewrite dict_get_update_other; [reflexivity|].
    rewrite keys. simpl. intros [H|[_ H]]; [|discriminate].
    repeat (destruct H as [H|H]; [discriminate|]). exact H.
  - intros Hname. rewrite (arith_eval_name _ _ _ Hname).
    unfold lookup. simpl dict_get at 1.
    rewrite <- names, <- dict_get_in_keys.
    destruct (dict_get name (safe_env math_dict)) as [v|].
    + split; [eauto|]. intros H. exfalso. apply H. eauto.
    + split; [|reflexivity]. intros [v H]. discriminate.
Qed.
